(** * Representational similarity analysis: matrices, the mean-softmax
      transform and the randomisation test

    A shallow embedding of [predictors/rsa.py], [hebart_comparison.py] and
    [similarity_comparison.py].

    Numbers.  Every number the Python code handles is a numpy [float64].
    The embedding is written once, over an interface [Scalar] of the float
    operations the code uses, and read at two instances: the real numbers
    (exact arithmetic, with the true exponential) and the kernel's binary64
    floats (the arithmetic the program really runs, bit for bit).

    Library calls.  numpy and scipy functions are embedded after their
    documented behaviour: [ix_] selection, [transpose], [fill_diagonal],
    [corrcoef], [squareform] (with its symmetry and zero-diagonal checks),
    [percentileofscore] (default kind, "rank"), [searchsorted] (binary
    search, side "left") and [numpy.random.permutation] (an interface
    [RandomState]).  [ndarray.sum] is a left-to-right sum here; numpy sums
    long arrays pairwise, which changes roundings only.

    Failures.  A Python exception is a value [Raise e] of the [result]
    monad; [assert] raises [AssertionError], an index out of range raises
    [IndexError]. *)

From Stdlib Require Import Reals Lra Floats.
From stdpp Require Import base list strings gmap.

Open Scope nat_scope.

(** ** Exceptions *)

Inductive exn : Set :=
  | AssertionError
  | IndexError
  | ValueError
  | KeyError
  | WordNotInNormsError.

Inductive result (A : Type) : Type :=
  | Ok (a : A)
  | Raise (e : exn).
Arguments Ok {A} a.
Arguments Raise {A} e.

#[global] Instance result_ret : MRet result := fun A a => Ok a.
#[global] Instance result_bind : MBind result := fun A B f m =>
  match m with
  | Ok a => f a
  | Raise e => Raise e
  end.
#[global] Instance result_fmap : FMap result := fun A B f m =>
  match m with
  | Ok a => Ok (f a)
  | Raise e => Raise e
  end.

(** [assert c] *)
Definition assert (c : bool) : result unit :=
  if c then Ok tt else Raise AssertionError.

(** A [for] loop whose body may raise: the loop variable runs over [xs],
    the loop-carried state is threaded through, the first exception ends
    the loop. *)
Fixpoint for_ {A S : Type} (xs : list A) (s : S) (body : A -> S -> result S)
  : result S :=
  match xs with
  | [] => Ok s
  | x :: xs' => s' ← body x s; for_ xs' s' body
  end.

(** ** The float interface *)

Class Scalar (F : Type) : Type := {
  fzero : F;
  fone : F;
  fadd : F -> F -> F;
  fsub : F -> F -> F;
  fopp : F -> F;
  fmul : F -> F -> F;
  fdiv : F -> F -> F;
  fsqrt : F -> F;
  (** conversion of a Python [int] (a length, a count, a literal) *)
  fnat : nat -> F;
  fltb : F -> F -> bool;
  fleb : F -> F -> bool;
  feqb : F -> F -> bool
}.

(** [numpy.exp] *)
Class Exp (F : Type) : Type := fexp : F -> F.

#[global] Instance R_scalar : Scalar R := {
  fzero := 0%R;
  fone := 1%R;
  fadd := Rplus;
  fsub := Rminus;
  fopp := Ropp;
  fmul := Rmult;
  fdiv := Rdiv;
  fsqrt := R_sqrt.sqrt;
  fnat := INR;
  fltb x y := if Rlt_dec x y then true else false;
  fleb x y := if Rle_dec x y then true else false;
  feqb x y := if Req_dec_T x y then true else false
}.

#[global] Instance R_exp : Exp R := Rtrigo_def.exp.

#[global] Instance float_scalar : Scalar float := {
  fzero := 0%float;
  fone := 1%float;
  fadd := PrimFloat.add;
  fsub := PrimFloat.sub;
  fopp := PrimFloat.opp;
  fmul := PrimFloat.mul;
  fdiv := PrimFloat.div;
  fsqrt := PrimFloat.sqrt;
  fnat n := PrimFloat.of_uint63 (Uint63.of_Z (Z.of_nat n));
  fltb := PrimFloat.ltb;
  fleb := PrimFloat.leb;
  feqb := PrimFloat.eqb
}.

(** ** numpy: arrays *)

Module Numpy.
Section Arrays.
Context {F : Type} `{!Scalar F}.

(** A two-dimensional array, row by row. *)
Local Abbreviation matrix := (list (list F)).

(** [M.shape == (r, c)] *)
Definition has_shape (r c : nat) (M : matrix) : bool :=
  (length M =? r) && forallb (fun row => length row =? c) M.

(** [M.shape[0]] *)
Definition shape0 (M : matrix) : nat := length M.

(** [zeros(n)], [zeros((r, c))] *)
Definition zeros (n : nat) : list F := replicate n fzero.
Definition zeros2 (r c : nat) : matrix := replicate r (zeros c).

(** Reading [M[i, j]] where the index is known to be in range; out of
    range the embedding reads [0.0] (the checked read is [getitem2]). *)
Definition at2 (M : matrix) (i j : nat) : F :=
  match M !! i with
  | Some row => default fzero (row !! j)
  | None => fzero
  end.

(** [M[i, j]], raising [IndexError] out of range. *)
Definition getitem2 (M : matrix) (i j : nat) : result F :=
  match M !! i with
  | Some row =>
      match row !! j with
      | Some x => Ok x
      | None => Raise IndexError
      end
  | None => Raise IndexError
  end.

(** [v[k] = x], raising [IndexError] out of range. *)
Definition setitem (v : list F) (k : nat) (x : F) : result (list F) :=
  if k <? length v then Ok (<[k := x]> v) else Raise IndexError.

(** [M[i, j] = x] where the index is in range (a write out of range
    leaves the array as it is, see [setitem2] for the checked write). *)
Definition set2 (M : matrix) (i j : nat) (x : F) : matrix :=
  alter (fun row => <[j := x]> row) i M.

(** [M[i, j] = x], raising [IndexError] out of range. *)
Definition setitem2 (M : matrix) (i j : nat) (x : F) : result matrix :=
  match M !! i with
  | Some row =>
      if j <? length row then Ok (set2 M i j x) else Raise IndexError
  | None => Raise IndexError
  end.

(** Elementwise application, as in [exp(M)], [1 - M], [M /= c]. *)
Definition mat_map (f : F -> F) (M : matrix) : matrix := map (map f) M.

(** [transpose(M)] of an array with [length M] rows and [c] columns. *)
Definition transpose_cols (c : nat) (M : matrix) : matrix :=
  map (fun j => map (fun i => at2 M i j) (seq 0 (length M))) (seq 0 c).

(** [transpose(M)] of a square array. *)
Definition transpose (M : matrix) : matrix := transpose_cols (length M) M.

(** [A + B] for arrays of one shape. *)
Definition mat_add (A B : matrix) : matrix := zip_with (zip_with fadd) A B.

(** [fill_diagonal(M, x)] *)
Definition fill_diagonal (M : matrix) (x : F) : matrix :=
  imap (fun i row => <[i := x]> row) M.

(** [M[ix_(rows, cols)]] with every index in range. *)
Definition select (M : matrix) (rows cols : list nat) : matrix :=
  map (fun i => map (fun j => at2 M i j) cols) rows.

(** [M[ix_(rows, cols)]], raising [IndexError] when an index is out of
    range (every row of a numpy array has the same length). *)
Definition getitem_ix (M : matrix) (rows cols : list nat) : result matrix :=
  if forallb (fun i => i <? length M) rows
     && forallb (fun j => forallb (fun row => j <? length row) M) cols
  then Ok (select M rows cols)
  else Raise IndexError.

(** [v.sum()] *)
Definition fsum (v : list F) : F := foldl fadd fzero v.

(** [count_nonzero(cond)] over the entries of a vector *)
Definition count_nonzero (cond : F -> bool) (v : list F) : nat :=
  length (filter (fun x => cond x = true) v).

(** [v.mean()] *)
Definition mean (v : list F) : F := fdiv (fsum v) (fnat (length v)).

(** [dot(u, v)] of two vectors *)
Definition dot (u v : list F) : F := fsum (zip_with fmul u v).

(** [M.shape[1]] (0 for an array without rows) *)
Definition shape1 (M : matrix) : nat :=
  match M with
  | [] => 0
  | row :: _ => length row
  end.

(** [dot(A, B)] of two-dimensional arrays whose shapes fit, [B] with [p]
    columns: the entry [i, j] is the sum over [k] of
    [A[i, k] * B[k, j]]. *)
Definition mat_dot (p : nat) (A B : matrix) : matrix :=
  map (fun row =>
         map (fun j => fsum (imap (fun k x => fmul x (at2 B k j)) row))
             (seq 0 p))
      A.

(** [clip(x, lo, hi)]; a NaN passes through. *)
Definition clip (x lo hi : F) : F :=
  if fltb x lo then lo else if fltb hi x then hi else x.

(** The entry [0, 1] of [corrcoef(x, y)] for two vectors of one length:
    the rows are centred, the covariance matrix is
    [dot(X, X.T) * (1 / (N - 1))], its entry [0, 1] is divided by the two
    standard deviations in turn and clipped to [-1, 1]. *)
Definition pearson (x y : list F) : F :=
  let xc := map (fun a => fsub a (mean x)) x in
  let yc := map (fun a => fsub a (mean y)) y in
  let fact := fdiv fone (fnat (length x - 1)) in
  let c00 := fmul (dot xc xc) fact in
  let c01 := fmul (dot xc yc) fact in
  let c11 := fmul (dot yc yc) fact in
  clip (fdiv (fdiv c01 (fsqrt c00)) (fsqrt c11)) (fopp fone) fone.

(** [corrcoef(x, y)[0, 1]]; vectors of different lengths cannot be
    stacked: [ValueError]. *)
Definition corrcoef01 (x y : list F) : result F :=
  if negb (length x =? length y) then Raise ValueError
  else Ok (pearson x y).
End Arrays.

(** [searchsorted(a, v)] on strings, side "left": a binary search for each
    key; the array is not checked to be sorted.  [fuel] bounds the number
    of halvings, and the width [hi - lo] is enough of it. *)
Fixpoint binsearch_left (fuel : nat) (a : list string) (key : string)
    (lo hi : nat) : nat :=
  match fuel with
  | 0 => lo
  | S fuel' =>
      if lo <? hi then
        let mid := lo + (hi - lo) / 2 in
        match a !! mid with
        | Some x =>
            if String.ltb x key
            then binsearch_left fuel' a key (mid + 1) hi
            else binsearch_left fuel' a key lo mid
        | None => lo
        end
      else lo
  end.

Definition searchsorted (a v : list string) : list nat :=
  map (fun key => binsearch_left (length a) a key 0 (length a)) v.

(** [numpy.random]: the generator behind [permutation(n)].  A call returns
    a permutation of [range(n)] and moves the generator on. *)
Class RandomState (G : Type) : Type := {
  permutation : nat -> G -> list nat * G;
  permutation_Permutation : forall n g, (permutation n g).1 ≡ₚ seq 0 n
}.

(** A generator to run the code with: its state is the tape of words the
    bit generator will deliver (0 once the tape is used up), and
    [permutation(n)] shuffles [arange(n)] as numpy does, swapping position
    [i] with a position drawn from [0..i], for [i] from [n - 1] down to 1. *)
Definition swap (arr : list nat) (i j : nat) : list nat :=
  match arr !! i, arr !! j with
  | Some a, Some b => <[i := b]> (<[j := a]> arr)
  | _, _ => arr
  end.

Fixpoint shuffle (i : nat) (arr : list nat) (tape : list nat)
  : list nat * list nat :=
  match i with
  | 0 => (arr, tape)
  | S i' => shuffle i' (swap arr i (hd 0 tape mod (S i))) (tl tape)
  end.

Definition tape_permutation (n : nat) (tape : list nat)
  : list nat * list nat :=
  shuffle (n - 1) (seq 0 n) tape.

#[global] Instance tape_RandomState : RandomState (list nat).
Proof.
  refine {| permutation := tape_permutation |}.
  assert (forall i arr tape, (shuffle i arr tape).1 ≡ₚ arr) as Hshuffle.
  { induction i as [|i IH]; intros arr tape; [done|].
    cbn [shuffle]. rewrite IH. unfold swap.
    destruct (arr !! S i) as [a|] eqn:Hi; [|done].
    destruct (arr !! (hd 0 tape mod S (S i))) as [b|] eqn:Hj; [|done].
    by apply Permutation_insert_swap. }
  intros n tape. apply Hshuffle.
Defined.
End Numpy.
Export Numpy.

(** ** scipy *)

Module Scipy.
Section Stats.
Context {F : Type} `{!Scalar F}.
Local Abbreviation matrix := (list (list F)).

(** [scipy.spatial.distance.is_valid_dm(X, tol=0)]: [X == X.T]
    everywhere and a diagonal of zeros. *)
Definition is_valid_dm (X : matrix) : bool :=
  let d := length X in
  forallb (fun i => forallb (fun j => feqb (at2 X i j) (at2 X j i)) (seq 0 d))
          (seq 0 d)
  && forallb (fun i => feqb (at2 X i i) fzero) (seq 0 d).

(** The entries above the diagonal, row by row. *)
Definition upper_triangle (X : matrix) : list F :=
  let d := length X in
  flat_map (fun i => map (fun j => at2 X i j) (seq (i + 1) (d - (i + 1))))
           (seq 0 d).

(** [scipy.spatial.distance.squareform(X)] of a two-dimensional [X]
    (with the default [checks=True]): a [ValueError] unless [X] is
    square, symmetric and zero on its diagonal; then the entries above
    the diagonal. *)
Definition squareform (X : matrix) : result (list F) :=
  let d := length X in
  if negb (has_shape d d X) then Raise ValueError else
  if negb (is_valid_dm X) then Raise ValueError else
  Ok (upper_triangle X).

(** [scipy.stats.percentileofscore(a, score)], kind "rank": with [left]
    the number of entries below the score and [right] the number of
    entries not above it, [(left + right + (left < right)) * (50 / n)].
    A NaN score is returned as it is. *)
Definition percentileofscore (a : list F) (score : F) : F :=
  if negb (feqb score score) then score else
  let n := length a in
  let left := count_nonzero (fun x => fltb x score) a in
  let right := count_nonzero (fun x => fleb x score) a in
  let plus1 := if left <? right then 1 else 0 in
  fmul (fnat (left + right + plus1)) (fdiv (fnat 50) (fnat n)).
End Stats.
End Scipy.
Export Scipy.

(** ** aux.find_indices *)

(** Modelled from the spec: [aux.find_indices] is not among the source
    files.  The spec (4.1) has the requested labels resolved against the
    matrix's own labels, in the requested order, and an absent label stay
    unresolved, so that "the number of resolved indices must equal the
    number of requested labels" fails exactly then.  A label resolves to
    its first position. *)
Fixpoint index_of (w : string) (l : list string) : option nat :=
  match l with
  | [] => None
  | x :: l' => if String.eqb x w then Some 0 else S <$> index_of w l'
  end.

Definition find_indices (all_labels subset : list string) : list nat :=
  omap (fun w => index_of w all_labels) subset.

(** ** predictors/rsa.py *)

Module Rsa.
Section Classes.
Context {F : Type} `{!Scalar F}.

(** [class LabelledSymmetricMatrix]: the two attributes. *)
Record LabelledSymmetricMatrix : Type := Build_LSM {
  matrix : list (list F);
  labels : list string
}.

(** [LabelledSymmetricMatrix.__init__], with its assertion
    [len(labels) == matrix.shape[0] == matrix.shape[1]]. *)
Definition LabelledSymmetricMatrix_init (m : list (list F))
    (l : list string) : result LabelledSymmetricMatrix :=
  _ ← assert (has_shape (length l) (length l) m);
  Ok (Build_LSM m l).

(** The subclasses add no attribute and inherit [__init__]. *)
Record SimilarityMatrix : Type := as_SimilarityMatrix {
  sm_base :> LabelledSymmetricMatrix
}.
Record RDM : Type := as_RDM {
  rdm_base :> LabelledSymmetricMatrix
}.

Definition SimilarityMatrix_init (m : list (list F)) (l : list string)
  : result SimilarityMatrix :=
  as_SimilarityMatrix <$> LabelledSymmetricMatrix_init m l.

Definition RDM_init (m : list (list F)) (l : list string) : result RDM :=
  as_RDM <$> LabelledSymmetricMatrix_init m l.

(** [LabelledSymmetricMatrix.for_subset] *)
Definition for_subset (self : LabelledSymmetricMatrix)
    (subset_words : list string) : result LabelledSymmetricMatrix :=
  let idxs := find_indices (labels self) subset_words in
  _ ← assert (length idxs =? length subset_words);
  m ← getitem_ix (matrix self) idxs idxs;
  LabelledSymmetricMatrix_init m subset_words.

(** [SimilarityMatrix.for_subset] *)
Definition SimilarityMatrix_for_subset (self : SimilarityMatrix)
    (subset_words : list string) : result SimilarityMatrix :=
  s ← for_subset self subset_words;
  SimilarityMatrix_init (matrix s) (labels s).

(** [RDM.for_subset] *)
Definition RDM_for_subset (self : RDM) (subset_words : list string)
  : result RDM :=
  s ← for_subset self subset_words;
  RDM_init (matrix s) (labels s).

(** [SimilarityMatrix.from_rdm] *)
Definition from_rdm (rdm : RDM) : result SimilarityMatrix :=
  SimilarityMatrix_init (mat_map (fsub fone) (matrix rdm)) (labels rdm).

(** [RDM.from_similarity_matrix] *)
Definition from_similarity_matrix (similarity_matrix : SimilarityMatrix)
  : result RDM :=
  RDM_init (mat_map (fsub fone) (matrix similarity_matrix))
           (labels similarity_matrix).

(** [SimilarityMatrix.by_dotproduct] *)
Definition by_dotproduct (data_matrix : list (list F))
    (labels : list string) : result SimilarityMatrix :=
  SimilarityMatrix_init
    (mat_dot (shape0 data_matrix) data_matrix
             (transpose_cols (shape1 data_matrix) data_matrix))
    labels.

(** [LabelledSymmetricMatrix.correlate_with] *)
Definition correlate_with (self other : LabelledSymmetricMatrix)
  : result F :=
  _ ← assert (length (labels self) =? length (labels other));
  x ← squareform (matrix self);
  y ← squareform (matrix other);
  corrcoef01 x y.
End Classes.
Arguments LabelledSymmetricMatrix : clear implicits.
Arguments SimilarityMatrix : clear implicits.
Arguments RDM : clear implicits.

Section Transform.
Context {F : Type} `{!Scalar F} `{!Exp F}.

(** The quotient stored in [ctmp[0, k]]. *)
Definition softmax_term (E : list (list F)) (i j k : nat) : F :=
  fdiv (at2 E i j) (fadd (fadd (at2 E i j) (at2 E i k)) (at2 E j k)).

(** [ctmp] after the loop [for k in idxs] for the pair [(i, j)]. *)
Definition triplet_row (E : list (list F)) (n : nat) (idxs : list nat)
    (i j : nat) : list F :=
  foldl (fun ctmp k =>
           if (k =? i) || (k =? j) then ctmp
           else <[k := softmax_term E i j k]> ctmp)
        (zeros n) idxs.

(** [cp] after the loops [for i in idxs: for j in idxs]. *)
Definition fill_pairs (E : list (list F)) (n : nat) (idxs : list nat)
  : list (list F) :=
  foldl (fun cp i =>
           foldl (fun cp j =>
                    if i =? j then cp
                    else set2 cp i j (fsum (triplet_row E n idxs i j)))
                 cp idxs)
        (zeros2 n n) idxs.

(** [cp] after [cp /= len(subset_labels)]. *)
Definition averaged_pairs (E : list (list F)) (n : nat) (idxs : list nat)
    (m : nat) : list (list F) :=
  mat_map (fun x => fdiv x (fnat m)) (fill_pairs E n idxs).

(** [cp += transpose(cp); cp /= 2] *)
Definition force_symmetry (cp : list (list F)) : list (list F) :=
  mat_map (fun x => fdiv x (fnat 2)) (mat_add cp (transpose cp)).

(** [SimilarityMatrix.mean_softmax_probability_matrix] *)
Definition mean_softmax_probability_matrix
    (from_similarity_matrix : SimilarityMatrix F)
    (subset_labels : option (list string)) : result (SimilarityMatrix F) :=
  let subset_labels :=
    default (labels from_similarity_matrix) subset_labels in
  let idxs := find_indices (labels from_similarity_matrix) subset_labels in
  _ ← assert (length idxs =? length subset_labels);
  let exp_similarity_matrix :=
    mat_map fexp (matrix from_similarity_matrix) in
  let n := length (labels from_similarity_matrix) in
  let cp := averaged_pairs exp_similarity_matrix n idxs
              (length subset_labels) in
  let cp := force_symmetry cp in
  let cp := fill_diagonal cp fone in
  selected_similarities ← getitem_ix cp idxs idxs;
  SimilarityMatrix_init selected_similarities subset_labels.
End Transform.

Section Randomisation.
Context {F : Type} `{!Scalar F} {G : Type} `{!RandomState G}.

(** The body of the loop [for perm_i in range(n_perms)], on the state
    [(r_perms, generator)]. *)
Definition permutation_step (c1 : list F) (rdm_1 rdm_2 : list (list F))
    (perm_i : nat) (st : list F * G) : result (list F * G) :=
  let '(perm, g) := permutation (shape0 rdm_1) st.2 in
  permuted ← getitem_ix rdm_2 perm perm;
  c2 ← squareform permuted;
  r ← corrcoef01 c1 c2;
  Ok (<[perm_i := r]> st.1, g).

(** [r_perms] and the generator after the loop. *)
Definition null_distribution (rdm_1 rdm_2 : list (list F)) (n_perms : nat)
    (g : G) : result (list F * G) :=
  c1 ← squareform rdm_1;
  for_ (seq 0 n_perms) (zeros n_perms, g) (permutation_step c1 rdm_1 rdm_2).

(** [randomisation_p]; the generator is numpy's global one, passed in and
    handed back. *)
Definition randomisation_p (rdm_1 rdm_2 : list (list F)) (observed_r : F)
    (n_perms : nat) (g : G) : result (F * G) :=
  '(r_perms, g') ← null_distribution rdm_1 rdm_2 n_perms g;
  let p_value :=
    fsub fone (fdiv (percentileofscore r_perms observed_r) (fnat 100)) in
  Ok (p_value, g').

(** [RDM.correlate_with_nhst] *)
Definition correlate_with_nhst (self : RDM F) (other : LabelledSymmetricMatrix F)
    (n_perms : nat) (g : G) : result ((F * F) * G) :=
  r_value ← correlate_with self other;
  '(p_value, g') ←
    randomisation_p (matrix self) (matrix other) r_value n_perms g;
  Ok ((r_value, p_value), g').
End Randomisation.

Section Builders.
Context {F : Type} `{!Scalar F}.

(** The part-of-speech tags of [nltk.corpus.reader]. *)
Inductive POS : Set :=
  | NOUN
  | VERB
  | ADJ
  | ADV.

(** The word lists [SPOSE.words_select_48] and [SPOSE.words_common_18],
    and [BUCHANAN_FEATURE_NORMS.distance_between], of modules that are
    not among the source files. *)
Variable words_select_48 : list string.
Variable words_common_18 : list string.
Variable distance_between : string -> string -> F.

(** [words[i]] for an index in range *)
Definition word_at (words : list string) (i : nat) : string :=
  default EmptyString (words !! i).

(** [compute_wordnet_sm]; the argument is the method
    [association_type.association_between]. *)
Definition compute_wordnet_sm
    (association_between : string -> POS -> string -> POS -> F)
  : result (SimilarityMatrix F) :=
  let n_words := length words_select_48 in
  let similarity_matrix :=
    foldl (fun m i =>
             foldl (fun m j =>
                      set2 m i j
                        (association_between
                           (word_at words_select_48 i) NOUN
                           (word_at words_select_48 j) NOUN))
                   m (seq 0 n_words))
          (zeros2 n_words n_words) (seq 0 n_words) in
  let similarity_matrix := fill_diagonal similarity_matrix fone in
  SimilarityMatrix_init similarity_matrix words_select_48.

(** [compute_buchanan_sm] *)
Definition compute_buchanan_sm : result (SimilarityMatrix F) :=
  let n_words := length words_common_18 in
  let similarity_matrix :=
    foldl (fun m i =>
             foldl (fun m j =>
                      set2 m i j
                        (distance_between (word_at words_common_18 i)
                                          (word_at words_common_18 j)))
                   m (seq 0 n_words))
          (zeros2 n_words n_words) (seq 0 n_words) in
  let similarity_matrix := fill_diagonal similarity_matrix fone in
  SimilarityMatrix_init similarity_matrix words_common_18.
End Builders.
End Rsa.
Export Rsa.

(** ** hebart_comparison.py *)

Module Hebart.
Section Script.
Context {F : Type} `{!Scalar F} `{!Exp F}.

(** [mean_softmax_prob_matrix]: the body of [for k in
    word_positions_selected], on the state [ctmp]. *)
Definition triplet_step (E : list (list F)) (i j k : nat) (ctmp : list F)
  : result (list F) :=
  if (k =? i) || (k =? j) then Ok ctmp else
  eij ← getitem2 E i j;
  eij' ← getitem2 E i j;
  eik ← getitem2 E i k;
  ejk ← getitem2 E j k;
  setitem ctmp k (fdiv eij (fadd (fadd eij' eik) ejk)).

(** The body of [for j in range(i+1, n_all_conditions)], on [cp]. *)
Definition pair_step (E : list (list F)) (n_all_conditions : nat)
    (word_positions_selected : list nat) (i j : nat) (cp : list (list F))
  : result (list (list F)) :=
  ctmp ← for_ word_positions_selected (zeros n_all_conditions)
              (triplet_step E i j);
  setitem2 cp i j (fsum ctmp).

(** [mean_softmax_prob_matrix] ([print_progress] only prints). *)
Definition mean_softmax_prob_matrix (all_words select_words : list string)
    (similarity_matrix : list (list F)) : result (list (list F)) :=
  let n_all_conditions := length all_words in
  let n_subset_conditions := length select_words in
  let word_positions_selected := searchsorted all_words select_words in
  _ ← assert (length word_positions_selected =? n_subset_conditions);
  let e_similarity_matrix := mat_map fexp similarity_matrix in
  cp ← for_ (seq 0 n_all_conditions) (zeros2 n_all_conditions n_all_conditions)
         (fun i cp =>
            for_ (seq (i + 1) (n_all_conditions - (i + 1))) cp
                 (pair_step e_similarity_matrix n_all_conditions
                            word_positions_selected i));
  let cp := mat_map (fun x => fdiv x (fnat n_subset_conditions)) cp in
  let cp := mat_add cp (transpose cp) in
  let cp := fill_diagonal cp fone in
  getitem_ix cp word_positions_selected word_positions_selected.
End Script.

Section Randomisation.
Context {F : Type} `{!Scalar F} {G : Type} `{!RandomState G}.

(** The loop body of the script's [randomisation_p]: as in
    [predictors/rsa.py], with [permutation(48)]. *)
Definition permutation_step (c1 : list F) (rdm_2 : list (list F))
    (perm_i : nat) (st : list F * G) : result (list F * G) :=
  let '(perm, g) := permutation 48 st.2 in
  permuted ← getitem_ix rdm_2 perm perm;
  c2 ← squareform permuted;
  r ← corrcoef01 c1 c2;
  Ok (<[perm_i := r]> st.1, g).

(** [randomisation_p] *)
Definition randomisation_p (rdm_1 rdm_2 : list (list F)) (observed_r : F)
    (n_perms : nat) (g : G) : result (F * G) :=
  c1 ← squareform rdm_1;
  '(r_perms, g') ←
    for_ (seq 0 n_perms) (zeros n_perms, g) (permutation_step c1 rdm_2);
  let p_value :=
    fsub fone (fdiv (percentileofscore r_perms observed_r) (fnat 100)) in
  Ok (p_value, g').

(** The two generators of the running process: the one of Python's
    [random] module and numpy's global [numpy.random] one. *)
Record process : Type := Build_process {
  python_random : nat;
  numpy_random : G
}.

(** [random.seed(a)], the [seed] the script imports: it sets the
    generator of Python's [random] module. *)
Definition seed (a : nat) (p : process) : process :=
  {| python_random := a; numpy_random := numpy_random p |}.

(** The module's top level, [seed(2)], then one call of
    [randomisation_p] as [main] makes them: the permutations come from
    [numpy.random.permutation]. *)
Definition seeded_randomisation_p (rdm_1 rdm_2 : list (list F))
    (observed_r : F) (n_perms : nat) (p : process) : result F :=
  let p := seed 2 p in
  fst <$> randomisation_p rdm_1 rdm_2 observed_r n_perms (numpy_random p).
End Randomisation.
Arguments process : clear implicits.

Section Main.
Context {F : Type} `{!Scalar F} `{!Exp F} {G : Type} `{!RandomState G}.

(** Python's [max] of an iterable: the first item, replaced by each
    later item that is greater; [ValueError] on an empty one. *)
Definition py_max (v : list F) : result F :=
  match v with
  | [] => Raise ValueError
  | x :: v' => Ok (foldl (fun m y => if fltb m y then y else m) x v')
  end.

(** [main], region "Figure 2", the first comparison ("model vs ppts").
    [force_rerun] is [True]: the transform is computed, and nothing is
    saved or loaded.  What [main] loads from the data files are the
    arguments here: the word lists, [dot_product_49] and
    [rdm_48_triplet]; [n_perms] is the constant of the script.  The
    values printed are the values returned. *)
Definition main_model_vs_ppts (words words48 : list string)
    (dot_product_49 rdm_48_triplet : list (list F)) (n_perms : nat)
    (g : G) : result ((F * F) * G) :=
  spose_sim48 ← mean_softmax_prob_matrix words words48 dot_product_49;
  c1 ← squareform (mat_map (fsub fone) spose_sim48);
  c2 ← squareform rdm_48_triplet;
  r48 ← corrcoef01 c1 c2;
  '(p_value, g') ←
    randomisation_p (mat_map (fsub fone) spose_sim48) rdm_48_triplet r48
      n_perms g;
  Ok ((r48, p_value), g').

(** [main], region "Generate SM RDM for 48 words", the comparison
    "sm_minkowski vs ppts"; [sm_rdm_minkowski] is what
    [distance_matrix(sm_data, sm_data, p=3)] returned. *)
Definition main_sm_minkowski_vs_ppts (sm_words words48 : list string)
    (sm_rdm_minkowski rdm_48_triplet : list (list F)) (n_perms : nat)
    (g : G) : result ((F * F) * G) :=
  m ← py_max (concat sm_rdm_minkowski);
  let sm_sm_minkowski :=
    mat_map (fun x => fsub fone (fdiv x m)) sm_rdm_minkowski in
  let sm_sm_minkowski := fill_diagonal sm_sm_minkowski fone in
  sm_sim48_minkowski ←
    mean_softmax_prob_matrix sm_words words48 sm_sm_minkowski;
  c1 ← squareform (mat_map (fsub fone) sm_sim48_minkowski);
  c2 ← squareform rdm_48_triplet;
  sm_r48_minkowski ← corrcoef01 c1 c2;
  m' ← py_max (concat sm_rdm_minkowski);
  '(p_value, g') ←
    randomisation_p (mat_map (fsub m') sm_sim48_minkowski) rdm_48_triplet
      sm_r48_minkowski n_perms g;
  Ok ((sm_r48_minkowski, p_value), g').
End Main.
End Hebart.

(** ** similarity_comparison.py *)

Module SimilarityComparison.
Section Predictors.
Context {F : Type} `{!Scalar F}.

(** [DistanceType], of [linguistic_distributional_models.utils.maths]:
    the members the script names. *)
Inductive DistanceType : Set :=
  | cosine
  | Minkowski3
  | correlation
  | Euclidean.

Definition DistanceType_name (distance_type : DistanceType) : string :=
  match distance_type with
  | cosine => "cosine"
  | Minkowski3 => "Minkowski3"
  | correlation => "correlation"
  | Euclidean => "Euclidean"
  end.

(** [distance(v1, v2, distance_type=...)], of the same library. *)
Variable distance : list F -> list F -> DistanceType -> F.

(** A cell of a data frame: a word, a number, or the missing value. *)
Inductive cell : Type :=
  | Str (s : string)
  | Num (x : F)
  | NoneValue.

(** A pandas [DataFrame]: its column names and its rows, a row giving a
    cell for a column name. *)
Record DataFrame : Type := Build_DataFrame {
  columns : list string;
  rows : list (gmap string cell)
}.

(** [row[col]] *)
Definition getitem_row (row : gmap string cell) (col : string)
  : result cell :=
  match row !! col with
  | Some c => Ok c
  | None => Raise KeyError
  end.

(** Modelled from the spec: [SensorimotorNorms.vector_for_word] is not
    among the source files.  The spec (6) gives it as
    "vector_for_word(word) -> vector of floats, failing with a
    NotInVocabulary condition for unknown words"; the condition is the
    [WordNotInNormsError] the script catches, and the loaded norms are a
    finite map from words to vectors. *)
Definition vector_for_word (sn : gmap string (list F)) (word : cell)
  : result (list F) :=
  match word with
  | Str w =>
      match sn !! w with
      | Some v => Ok v
      | None => Raise WordNotInNormsError
      end
  | _ => Raise WordNotInNormsError
  end.

(** The [try] block of [calc_sensorimotor_distance]. *)
Definition try_sensorimotor_distance (sn : gmap string (list F))
    (key_col_1 key_col_2 : string) (distance_type : DistanceType)
    (row : gmap string cell) : result cell :=
  w1 ← getitem_row row key_col_1;
  v1 ← vector_for_word sn w1;
  w2 ← getitem_row row key_col_2;
  v2 ← vector_for_word sn w2;
  Ok (Num (distance v1 v2 distance_type)).

(** [calc_sensorimotor_distance]: [except WordNotInNormsError: return
    None]; any other exception passes.  The counter [i] feeds
    [print_progress] only, which prints. *)
Definition calc_sensorimotor_distance (sn : gmap string (list F))
    (key_col_1 key_col_2 : string) (distance_type : DistanceType)
    (row : gmap string cell) : result cell :=
  match try_sensorimotor_distance sn key_col_1 key_col_2 distance_type row
  with
  | Raise WordNotInNormsError => Ok NoneValue
  | r => r
  end.

(** [dataset.apply(f, axis=1)]: [f] on every row, in order. *)
Fixpoint apply_rows (f : gmap string cell -> result cell)
    (rs : list (gmap string cell)) : result (list cell) :=
  match rs with
  | [] => Ok []
  | r :: rs' => c ← f r; cs ← apply_rows f rs'; Ok (c :: cs)
  end.

Definition predictor_name (distance_type : DistanceType) : string :=
  "Sensorimotor distance (" +:+ DistanceType_name distance_type +:+ ")".

(** [add_sensorimotor_predictor]; [sn] is the loaded
    [SensorimotorNorms()], and the data frame the function changes in
    place is handed back. *)
Definition add_sensorimotor_predictor (sn : gmap string (list F))
    (dataset : DataFrame) (word_key_cols : string * string)
    (distance_type : DistanceType) : result DataFrame :=
  let name := predictor_name distance_type in
  if bool_decide (name ∈ columns dataset) then Ok dataset else
  let '(key_col_1, key_col_2) := word_key_cols in
  series ← apply_rows
    (calc_sensorimotor_distance sn key_col_1 key_col_2 distance_type)
    (rows dataset);
  Ok {| columns := columns dataset ++ [name];
        rows := zip_with (fun row c => <[name := c]> row)
                         (rows dataset) series |}.
End Predictors.
Arguments cell : clear implicits.
Arguments DataFrame : clear implicits.
End SimilarityComparison.

(** ** The vocabulary of the statements *)
Section Shapes.
Context {F : Type} `{!Scalar F}.

(** [shaped r c M]: [M] has [r] rows of [c] entries. *)
Definition shaped (r c : nat) (M : list (list F)) : Prop :=
  length M = r /\ Forall (fun row => length row = c) M.

(** An object that passed [LabelledSymmetricMatrix.__init__]. *)
Definition constructed (M : LabelledSymmetricMatrix F) : Prop :=
  has_shape (length (labels M)) (length (labels M)) (matrix M) = true.

(** A matrix [squareform] accepts: [n] by [n], symmetric, zero on the
    diagonal. *)
Definition valid_dm (n : nat) (X : list (list F)) : Prop :=
  shaped n n X /\ is_valid_dm X = true.

(** [1 - (1 - x)] returns [x]. *)
Definition survives_complement (x : F) : Prop :=
  fsub fone (fsub fone x) = x.

(** Entries mirrored across the diagonal are the same. *)
Definition symmetric (n : nat) (M : list (list F)) : Prop :=
  forall i j, i < n -> j < n -> at2 M i j = at2 M j i.

(** An outcome that is a state satisfying [P] or an [IndexError]. *)
Definition index_error_or {S : Type} (P : S -> Prop) (r : result S) : Prop :=
  match r with
  | Ok s => P s
  | Raise e => e = IndexError
  end.
End Shapes.

Section TransformVocabulary.
Context {F : Type} `{!Scalar F} `{!Exp F}.

(** [exp(S[i,j]) / (exp(S[i,j]) + exp(S[i,k]) + exp(S[j,k]))] *)
Definition softmax_probability (S : list (list F)) (i j k : nat) : F :=
  fdiv (fexp (at2 S i j))
       (fadd (fadd (fexp (at2 S i j)) (fexp (at2 S i k))) (fexp (at2 S j k))).

(** The sum of the triplet probabilities of the pair [(i, j)] over the
    third conditions [k] among [0 .. n-1] that [third] admits, [k = i] and
    [k = j] left out, divided by [m]. *)
Definition pair_mean (third : nat -> bool) (S : list (list F)) (n m : nat)
    (i j : nat) : F :=
  fdiv (fsum (map (fun k => if third k && negb (k =? i) && negb (k =? j)
                            then softmax_probability S i j k else fzero)
                  (seq 0 n)))
       (fnat m).

(** The third conditions of the source: those of the subset. *)
Definition in_subset (idxs : list nat) (k : nat) : bool :=
  bool_decide (k ∈ idxs).

(** The third conditions as the spec words them: every condition. *)
Definition in_full_set (k : nat) : bool := true.

(** The array the transform selects from. *)
Definition transform_array (S : SimilarityMatrix F) (subset : list string)
  : list (list F) :=
  fill_diagonal
    (force_symmetry
       (averaged_pairs (mat_map fexp (matrix S))
          (length (labels S))
          (find_indices (labels S) subset) (length subset)))
    fone.

(** The two ways to a transformed matrix over a subset. *)
Definition subset_first (S : SimilarityMatrix F) (subset : list string)
  : result (SimilarityMatrix F) :=
  mean_softmax_probability_matrix S (Some subset).

Definition full_then_narrow (S : SimilarityMatrix F) (subset : list string)
  : result (SimilarityMatrix F) :=
  full ← mean_softmax_probability_matrix S None;
  SimilarityMatrix_for_subset full subset.

(** What the script does to [cp] between the loops and the selection. *)
Definition averaged_and_mirrored (m : nat) (cp : list (list F))
  : list (list F) :=
  fill_diagonal
    (mat_add (mat_map (fun x => fdiv x (fnat m)) cp)
             (transpose (mat_map (fun x => fdiv x (fnat m)) cp)))
    fone.
End TransformVocabulary.

(** Words in strictly increasing order, as [searchsorted] expects them. *)
Definition strictly_sorted (a : list string) : Prop :=
  forall i j x y,
    i < j -> a !! i = Some x -> a !! j = Some y -> String.ltb x y = true.

(** Entry by entry within [tol]. *)
Definition agree_within (tol : R) (A B : list (list R)) : Prop :=
  length A = length B /\
  forall i j, i < length A -> j < length A ->
    (Rabs (at2 A i j - at2 B i j) <= tol)%R.

Section RandomisationVocabulary.
Context {F : Type} `{!Scalar F} {G : Type} `{!RandomState G}.

(** The permutations [k] calls of [permutation(n)] in a row return, and
    the generator they leave. *)
Fixpoint draws (n k : nat) (g : G) : list (list nat) * G :=
  match k with
  | 0 => ([], g)
  | S k' =>
      let '(perm, g1) := permutation n g in
      let '(perms, g2) := draws n k' g1 in
      (perm :: perms, g2)
  end.

(** The correlation of the first matrix with the second one permuted. *)
Definition permuted_correlation (rdm_1 rdm_2 : list (list F))
    (perm : list nat) : F :=
  pearson (upper_triangle rdm_1) (upper_triangle (select rdm_2 perm perm)).
End RandomisationVocabulary.

Import SimilarityComparison.

Section PredictorVocabulary.
Context {F : Type} `{!Scalar F}.
Variable distance : list F -> list F -> DistanceType -> F.

(** The predictor value of a row with the key words [w1] and [w2]. *)
Definition predictor_cell (sn : gmap string (list F)) (w1 w2 : string)
    (distance_type : DistanceType) : cell F :=
  match sn !! w1, sn !! w2 with
  | Some v1, Some v2 => Num (distance v1 v2 distance_type)
  | _, _ => NoneValue
  end.

(** Rows whose two key cells are words. *)
Definition keyed (k1 k2 : string) (row : gmap string (cell F)) : Prop :=
  exists w1 w2, row !! k1 = Some (Str w1) /\ row !! k2 = Some (Str w2).
End PredictorVocabulary.

(** ** Inputs to run the code on *)

Definition abc : list string := ["a"; "b"; "c"].

(** Three conditions, every similarity 0. *)
Definition flat3 : SimilarityMatrix R :=
  as_SimilarityMatrix
    (Build_LSM [[0; 0; 0]; [0; 0; 0]; [0; 0; 0]]%R abc).

(** Three conditions of any similarities. *)
Definition sim3 {F : Type} (x00 x01 x02 x10 x11 x12 x20 x21 x22 : F)
  : SimilarityMatrix F :=
  as_SimilarityMatrix
    (Build_LSM [[x00; x01; x02]; [x10; x11; x12]; [x20; x21; x22]] abc).

(** Two conditions of similarity 0.5, and of similarity 0.1, in binary64. *)
Definition half2 : SimilarityMatrix float :=
  as_SimilarityMatrix
    (Build_LSM [[1; 0x1p-1]; [0x1p-1; 1]]%float ["a"; "b"]).

Definition tenth2 : SimilarityMatrix float :=
  as_SimilarityMatrix
    (Build_LSM [[1; 0x1.999999999999ap-4]; [0x1.999999999999ap-4; 1]]%float
               ["a"; "b"]).

(** Three conditions in binary64: a dissimilarity matrix, and one whose
    conditions are all at distance 1 from each other. *)
Definition d3 : list (list float) := [[0; 1; 2]; [1; 0; 4]; [2; 4; 0]]%float.
Definition z3 : list (list float) := [[0; 1; 1]; [1; 0; 1]; [1; 1; 0]]%float.

(** Two conditions over the reals. *)
Definition r2 : list (list R) := [[0; 1]; [1; 0]]%R.

(** 48 conditions, [|i - j|] apart. *)
Definition dm48 : list (list float) :=
  map (fun i => map (fun j => fnat (if i <? j then j - i else i - j))
                    (seq 0 48))
      (seq 0 48).

(** The same distances over the reals, and 48 words in increasing order
    ("A0", "A1", ..., "E7") to label them. *)
Definition dm48_exact : list (list R) :=
  map (fun i => map (fun j => fnat (if i <? j then j - i else i - j))
                    (seq 0 48))
      (seq 0 48).

Definition words48_sorted : list string :=
  map (fun i => String (Ascii.ascii_of_nat (65 + i / 10))
                  (String (Ascii.ascii_of_nat (48 + i mod 10)) EmptyString))
      (seq 0 48).

(** The tape on which the shuffle of 48 positions swaps nothing. *)
Definition still_tape : list nat := rev (seq 1 47).

(** Norms of two words, a distance to run with (the difference of the
    first coordinates), and a data frame of two rows, the first with a word
    the norms lack. *)
Definition norms : gmap string (list float) :=
  {[ "cat" := [1; 2]%float; "dog" := [2; 1]%float ]}.

Definition first_coordinates (v1 v2 : list float) (_ : DistanceType)
  : float :=
  fsub (default fzero (head v1)) (default fzero (head v2)).

Definition pairs : DataFrame float :=
  {| columns := ["Word 1"; "Word 2"];
     rows := [ {[ "Word 1" := Str "zzz"; "Word 2" := Str "cat" ]};
               {[ "Word 1" := Str "dog"; "Word 2" := Str "cat" ]} ] |}.

(** The same rows with the predictor column filled in already. *)
Definition pairs_done : DataFrame float :=
  {| columns := ["Word 1"; "Word 2"; "Sensorimotor distance (cosine)"];
     rows := [ {[ "Word 1" := Str "zzz"; "Word 2" := Str "cat";
                  "Sensorimotor distance (cosine)" := Num 3%float ]};
               {[ "Word 1" := Str "dog"; "Word 2" := Str "cat";
                  "Sensorimotor distance (cosine)" := Num 1%float ]} ] |}.

(** * Facts and theorems *)

(** ** Arrays *)
Section ArrayFacts.
Context {F : Type} `{!Scalar F}.
Implicit Types (M A B : list (list F)) (i j r c n : nat).

Lemma has_shape_shaped r c M : has_shape r c M = true <-> shaped r c M.
Proof.
  unfold has_shape, shaped.
  rewrite andb_true_iff, Nat.eqb_eq, forallb_forall, Forall_forall.
  split; intros [Hl Hr]; split; try done; intros row Hin.
  - apply Nat.eqb_eq, Hr. by apply list_elem_of_In.
  - apply Nat.eqb_eq, Hr. by apply list_elem_of_In.
Qed.

Lemma shaped_row r c M i row :
  shaped r c M -> M !! i = Some row -> length row = c.
Proof.
  intros [_ Hr] Hi. rewrite Forall_lookup in Hr. by eapply Hr.
Qed.

Lemma shaped_at2 r c M i j :
  shaped r c M -> i < r -> j < c ->
  exists row x, M !! i = Some row /\ row !! j = Some x /\ at2 M i j = x.
Proof.
  intros HM Hi Hj.
  destruct (lookup_lt_is_Some_2 M i ltac:(destruct HM; lia)) as [row Hrow].
  pose proof (shaped_row _ _ _ _ _ HM Hrow) as Hlen.
  destruct (lookup_lt_is_Some_2 row j ltac:(lia)) as [x Hx].
  exists row, x. unfold at2. rewrite Hrow, Hx. done.
Qed.

Lemma getitem2_at2 r c M i j :
  shaped r c M -> i < r -> j < c -> getitem2 M i j = Ok (at2 M i j).
Proof.
  intros HM Hi Hj.
  destruct (shaped_at2 r c M i j) as (row & x & Hrow & Hx & Hat); try done.
  unfold getitem2. by rewrite Hrow, Hx, Hat.
Qed.

(** Two arrays of one shape with the same entries are the same array. *)
Lemma shaped_ext r c A B :
  shaped r c A -> shaped r c B ->
  (forall i j, i < r -> j < c -> at2 A i j = at2 B i j) -> A = B.
Proof.
  intros HA HB Heq. apply list_eq. intros i.
  destruct (decide (i < r)) as [Hi|Hi].
  - destruct (lookup_lt_is_Some_2 A i ltac:(destruct HA; lia)) as [ra Hra].
    destruct (lookup_lt_is_Some_2 B i ltac:(destruct HB; lia)) as [rb Hrb].
    rewrite Hra, Hrb. f_equal. apply list_eq. intros j.
    pose proof (shaped_row _ _ _ _ _ HA Hra) as La.
    pose proof (shaped_row _ _ _ _ _ HB Hrb) as Lb.
    destruct (decide (j < c)) as [Hj|Hj].
    + specialize (Heq i j Hi Hj). unfold at2 in Heq. rewrite Hra, Hrb in Heq.
      destruct (lookup_lt_is_Some_2 ra j ltac:(lia)) as [x Hx].
      destruct (lookup_lt_is_Some_2 rb j ltac:(lia)) as [y Hy].
      rewrite Hx, Hy in *. simpl in Heq. by subst.
    + rewrite !lookup_ge_None_2; [done|lia|lia].
  - destruct HA, HB. rewrite !lookup_ge_None_2; [done|lia|lia].
Qed.

Lemma shaped_zeros2 r c : shaped r c (zeros2 r c).
Proof.
  unfold zeros2, zeros. split; [by rewrite length_replicate|].
  apply Forall_replicate. by rewrite length_replicate.
Qed.

Lemma at2_zeros2 r c i j : at2 (zeros2 r c) i j = fzero.
Proof.
  unfold at2, zeros2, zeros.
  destruct (replicate r (replicate c fzero) !! i) as [row|] eqn:E; [|done].
  apply lookup_replicate in E as [-> _].
  destruct (replicate c fzero !! j) as [x|] eqn:E'; [|done].
  by apply lookup_replicate in E' as [-> _].
Qed.

Lemma shaped_mat_map r c f M : shaped r c M -> shaped r c (mat_map f M).
Proof.
  intros [Hl Hr]. unfold mat_map. split; [by rewrite length_map|].
  apply Forall_map. eapply Forall_impl; [exact Hr|].
  intros row. simpl. by rewrite length_map.
Qed.

Lemma at2_mat_map r c f M i j :
  shaped r c M -> i < r -> j < c -> at2 (mat_map f M) i j = f (at2 M i j).
Proof.
  intros HM Hi Hj.
  destruct (shaped_at2 r c M i j) as (row & x & Hrow & Hx & Hat); try done.
  unfold at2 at 1, mat_map. rewrite list_lookup_fmap, Hrow. simpl.
  rewrite list_lookup_fmap, Hx. simpl. by rewrite Hat.
Qed.

Lemma shaped_set2 r c M i j x : shaped r c M -> shaped r c (set2 M i j x).
Proof.
  intros [Hl Hr]. unfold set2. split; [by rewrite length_alter|].
  apply Forall_alter; [done|]. intros row _ <-. by rewrite length_insert.
Qed.

Lemma at2_set2 r c M i j x a b :
  shaped r c M -> i < r -> j < c ->
  at2 (set2 M i j x) a b =
    if decide (a = i /\ b = j) then x else at2 M a b.
Proof.
  intros HM Hi Hj. unfold at2, set2.
  destruct (decide (a = i)) as [->|Hai].
  - rewrite list_lookup_alter_eq.
    destruct (lookup_lt_is_Some_2 M i ltac:(destruct HM; lia)) as [row Hrow].
    rewrite Hrow. simpl.
    pose proof (shaped_row _ _ _ _ _ HM Hrow) as Hlen.
    destruct (decide (b = j)) as [->|Hbj].
    + rewrite list_lookup_insert_eq by lia. simpl.
      by rewrite decide_True.
    + rewrite list_lookup_insert_ne by done.
      rewrite decide_False; [done|tauto].
  - rewrite list_lookup_alter_ne by done.
    rewrite decide_False; [done|tauto].
Qed.

Lemma shaped_transpose n M : shaped n n M -> shaped n n (transpose M).
Proof.
  intros [Hl _]. unfold transpose, transpose_cols. rewrite Hl.
  split; [by rewrite length_map, length_seq|].
  apply Forall_map, Forall_forall. intros j _. simpl.
  by rewrite length_map, length_seq.
Qed.

Lemma at2_transpose n M i j :
  shaped n n M -> i < n -> j < n -> at2 (transpose M) i j = at2 M j i.
Proof.
  intros [Hl _] Hi Hj. unfold transpose, transpose_cols. rewrite Hl.
  unfold at2 at 1. rewrite list_lookup_fmap, lookup_seq_lt by done. simpl.
  by rewrite list_lookup_fmap, lookup_seq_lt.
Qed.

Lemma shaped_mat_add r c A B :
  shaped r c A -> shaped r c B -> shaped r c (mat_add A B).
Proof.
  intros [La Ha] [Lb Hb]. unfold mat_add.
  split; [rewrite length_zip_with; lia|].
  apply Forall_lookup. intros i row Hrow.
  apply lookup_zip_with_Some in Hrow as (ra & rb & -> & Hra & Hrb).
  rewrite Forall_lookup in Ha, Hb.
  rewrite length_zip_with, (Ha _ _ Hra), (Hb _ _ Hrb). lia.
Qed.

Lemma at2_mat_add r c A B i j :
  shaped r c A -> shaped r c B -> i < r -> j < c ->
  at2 (mat_add A B) i j = fadd (at2 A i j) (at2 B i j).
Proof.
  intros HA HB Hi Hj.
  destruct (shaped_at2 r c A i j) as (ra & x & Hra & Hx & Hax); try done.
  destruct (shaped_at2 r c B i j) as (rb & y & Hrb & Hy & Hby); try done.
  rewrite Hax, Hby. unfold at2, mat_add.
  rewrite lookup_zip_with, Hra, Hrb. simpl.
  by rewrite lookup_zip_with, Hx, Hy.
Qed.

Lemma shaped_fill_diagonal r c M x :
  shaped r c M -> shaped r c (fill_diagonal M x).
Proof.
  intros [Hl Hr]. unfold fill_diagonal. split; [by rewrite length_imap|].
  apply Forall_lookup. intros i row Hrow.
  rewrite list_lookup_imap in Hrow.
  destruct (M !! i) as [row'|] eqn:E; [|done]. simpl in Hrow.
  injection Hrow as <-. rewrite length_insert.
  rewrite Forall_lookup in Hr. by eapply Hr.
Qed.

Lemma at2_fill_diagonal r c M x i j :
  shaped r c M -> i < r -> j < c ->
  at2 (fill_diagonal M x) i j = if decide (i = j) then x else at2 M i j.
Proof.
  intros HM Hi Hj.
  destruct (shaped_at2 r c M i j) as (row & y & Hrow & Hy & Hat); try done.
  pose proof (shaped_row _ _ _ _ _ HM Hrow) as Hlen.
  rewrite Hat. unfold at2, fill_diagonal.
  rewrite list_lookup_imap, Hrow. simpl.
  destruct (decide (i = j)) as [->|Hij].
  - by rewrite list_lookup_insert_eq by lia.
  - by rewrite list_lookup_insert_ne, Hy.
Qed.

Lemma shaped_select M rows cols :
  shaped (length rows) (length cols) (select M rows cols).
Proof.
  unfold select. split; [by rewrite length_map|].
  apply Forall_map, Forall_forall. intros i _. simpl.
  by rewrite length_map.
Qed.

Lemma at2_select M rows cols a b i j :
  rows !! a = Some i -> cols !! b = Some j ->
  at2 (select M rows cols) a b = at2 M i j.
Proof.
  intros Ha Hb. unfold at2 at 1, select.
  rewrite list_lookup_fmap, Ha. simpl.
  by rewrite list_lookup_fmap, Hb.
Qed.

Lemma getitem_ix_Ok n M idxs :
  shaped n n M -> Forall (fun i => i < n) idxs ->
  getitem_ix M idxs idxs = Ok (select M idxs idxs).
Proof.
  intros [Hl Hr] Hidx. unfold getitem_ix.
  rewrite Forall_forall in Hidx. rewrite Forall_forall in Hr.
  assert (forallb (fun i => i <? length M) idxs = true) as ->.
  { apply forallb_forall. intros i Hi. apply Nat.ltb_lt.
    rewrite Hl. by apply Hidx, list_elem_of_In. }
  assert (forallb (fun j => forallb (fun row => j <? length row) M) idxs
          = true) as ->; [|done].
  apply forallb_forall. intros j Hj. apply forallb_forall. intros row Hrow.
  apply Nat.ltb_lt. rewrite (Hr row) by by apply list_elem_of_In.
  by apply Hidx, list_elem_of_In.
Qed.
End ArrayFacts.

(** ** Label lookup and the loops of the transform *)
Section FindIndices.
Implicit Types (l sub : list string) (w : string).

Lemma index_of_Some w l i :
  index_of w l = Some i -> l !! i = Some w.
Proof.
  revert i. induction l as [|x l IH]; intros i; simpl; [done|].
  destruct (String.eqb x w) eqn:E.
  - intros [= <-]. apply String.eqb_eq in E. by subst.
  - destruct (index_of w l) as [i'|]; [|done].
    intros [= <-]. simpl. by apply IH.
Qed.

Lemma index_of_None w l : index_of w l = None <-> w ∉ l.
Proof.
  induction l as [|x l IH]; simpl.
  - split; [intros _; apply not_elem_of_nil|done].
  - destruct (String.eqb x w) eqn:E.
    + apply String.eqb_eq in E. subst. split; [done|].
      intros []. by left.
    + apply String.eqb_neq in E.
      rewrite not_elem_of_cons, <- IH.
      destruct (index_of w l); simpl; split; try done.
      all: try (by intros [_ ?]).
      all: try (intros _; split; [congruence|done]).
Qed.

Lemma index_of_lookup_NoDup l i w :
  NoDup l -> l !! i = Some w -> index_of w l = Some i.
Proof.
  revert i. induction l as [|x l IH]; intros i Hnd Hi; [done|].
  apply NoDup_cons in Hnd as [Hx Hnd]. simpl.
  destruct i as [|i]; simpl in Hi.
  - injection Hi as ->. by rewrite String.eqb_refl.
  - destruct (String.eqb x w) eqn:E.
    + apply String.eqb_eq in E. subst. destruct Hx.
      by eapply list_elem_of_lookup_2.
    + by rewrite (IH i).
Qed.

Lemma find_indices_cons l w sub :
  find_indices l (w :: sub) =
    match index_of w l with
    | Some i => i :: find_indices l sub
    | None => find_indices l sub
    end.
Proof. reflexivity. Qed.

Lemma find_indices_lt l sub :
  Forall (fun i => i < length l) (find_indices l sub).
Proof.
  induction sub as [|w sub IH]; [by constructor|].
  rewrite find_indices_cons.
  destruct (index_of w l) as [i|] eqn:E; [|done].
  constructor; [|done].
  apply index_of_Some in E. by eapply lookup_lt_Some.
Qed.

Lemma find_indices_length_le l sub :
  length (find_indices l sub) <= length sub.
Proof.
  induction sub as [|w sub IH]; [done|].
  rewrite find_indices_cons.
  destruct (index_of w l); simpl; lia.
Qed.

(** Every requested label resolves exactly when none is absent. *)
Lemma find_indices_length l sub :
  length (find_indices l sub) = length sub <-> Forall (fun w => w ∈ l) sub.
Proof.
  induction sub as [|w sub IH]; [done|].
  rewrite find_indices_cons, Forall_cons.
  pose proof (find_indices_length_le l sub) as Hle.
  destruct (index_of w l) as [i|] eqn:E; simpl.
  - rewrite <- IH. split; [|intros [_ ?]; lia].
    intros Hlen. split; [|lia].
    apply index_of_Some in E. by eapply list_elem_of_lookup_2.
  - split; [lia|]. intros [Hw _]. by apply index_of_None in E.
Qed.

Lemma find_indices_lookup l sub a i :
  find_indices l sub !! a = Some i ->
  length (find_indices l sub) = length sub ->
  exists w, sub !! a = Some w /\ l !! i = Some w.
Proof.
  revert a.
  induction sub as [|w sub IH]; intros a; [done|].
  rewrite find_indices_cons.
  pose proof (find_indices_length_le l sub) as Hle.
  destruct (index_of w l) as [i'|] eqn:E; simpl; [|lia].
  destruct a as [|a]; simpl.
  - intros [= <-] _. exists w. split; [done|]. by apply index_of_Some.
  - intros Ha Hlen. apply IH; [done|lia].
Qed.

Lemma find_indices_fmap_lookup l (idxs : list nat) sub :
  NoDup l -> Forall2 (fun i w => l !! i = Some w) idxs sub ->
  find_indices l sub = idxs.
Proof.
  intros Hnd H.
  induction H as [|i w idxs sub Hi _ IH]; [done|].
  by rewrite find_indices_cons, (index_of_lookup_NoDup l i w), IH.
Qed.

(** Against its own label list, a list of distinct labels resolves to
    [0, 1, ..., n - 1]. *)
Lemma find_indices_self l :
  NoDup l -> find_indices l l = seq 0 (length l).
Proof.
  intros Hnd. apply find_indices_fmap_lookup; [done|].
  apply Forall2_same_length_lookup. split; [by rewrite length_seq|].
  intros a i w Hi Hw. apply lookup_seq in Hi as [-> _]. done.
Qed.
End FindIndices.

Section TransformFacts.
Context {F : Type} `{!Scalar F} `{!Exp F}.
Implicit Types (E S M : list (list F)) (idxs : list nat).

Lemma triplet_fold_lookup E i j idxs : forall (acc : list F) k,
  foldl (fun ctmp k =>
           if (k =? i) || (k =? j) then ctmp
           else <[k := softmax_term E i j k]> ctmp) acc idxs !! k
  = if decide (k ∈ idxs /\ k <> i /\ k <> j /\ k < length acc)
    then Some (softmax_term E i j k) else acc !! k.
Proof.
  induction idxs as [|a idxs IH]; intros acc k; cbn [foldl].
  - rewrite decide_False; [done|]. intros [H _]. by apply elem_of_nil in H.
  - rewrite IH.
    assert (length (if (a =? i) || (a =? j) then acc
                    else <[a := softmax_term E i j a]> acc)
            = length acc) as Hlen.
    { destruct ((a =? i) || (a =? j)); [done|apply length_insert]. }
    rewrite Hlen.
    destruct (decide (k ∈ idxs /\ k <> i /\ k <> j /\ k < length acc))
      as [(Hin & Hi & Hj & Hk)|Hn].
    + rewrite decide_True; [done|]. repeat split; try done. by right.
    + destruct ((a =? i) || (a =? j)) eqn:Ea.
      * apply orb_true_iff in Ea. rewrite !Nat.eqb_eq in Ea.
        rewrite decide_False; [done|].
        intros (Hin & Hi & Hj & Hk). apply elem_of_cons in Hin as [->|Hin].
        -- destruct Ea; congruence.
        -- apply Hn. done.
      * apply orb_false_iff in Ea. rewrite !Nat.eqb_neq in Ea.
        destruct Ea as [Hai Haj].
        destruct (decide (k = a)) as [->|Hka].
        -- destruct (decide (a < length acc)) as [Hlt|Hge].
           ++ rewrite list_lookup_insert_eq by done.
              rewrite decide_True; [done|]. repeat split; try done. by left.
           ++ rewrite list_insert_ge by lia.
              rewrite decide_False; [done|]. intros (_ & _ & _ & ?). lia.
        -- rewrite list_lookup_insert_ne by done.
           rewrite decide_False; [done|].
           intros (Hin & Hi & Hj & Hk). apply elem_of_cons in Hin as [->|Hin].
           ++ done.
           ++ apply Hn. done.
Qed.

Lemma triplet_fold_length E i j idxs : forall (acc : list F),
  length (foldl (fun ctmp k =>
           if (k =? i) || (k =? j) then ctmp
           else <[k := softmax_term E i j k]> ctmp) acc idxs)
  = length acc.
Proof.
  induction idxs as [|a idxs IH]; intros acc; cbn [foldl]; [done|].
  rewrite IH. destruct ((a =? i) || (a =? j)); [done|apply length_insert].
Qed.

(** [ctmp], entry by entry: the quotient at the positions [k] of the
    subset other than [i] and [j], zero elsewhere. *)
Lemma triplet_row_map E n idxs i j :
  triplet_row E n idxs i j =
  map (fun k => if decide (k ∈ idxs /\ k <> i /\ k <> j)
                then softmax_term E i j k else fzero) (seq 0 n).
Proof.
  apply list_eq. intros k. unfold triplet_row.
  rewrite triplet_fold_lookup, list_lookup_fmap.
  unfold zeros. rewrite length_replicate.
  destruct (decide (k < n)) as [Hk|Hk].
  - rewrite lookup_seq_lt by done. simpl.
    destruct (decide (k ∈ idxs /\ k <> i /\ k <> j)) as [H|H].
    + rewrite decide_True; [done|]. tauto.
    + rewrite decide_False by tauto. by rewrite lookup_replicate_2.
  - rewrite decide_False by tauto.
    rewrite lookup_seq_ge by lia. simpl.
    apply lookup_replicate_None. lia.
Qed.

(** The loop over [j] for one [i]. *)
Lemma pair_fold_spec n (v : nat -> F) i js : forall cp,
  shaped n n cp -> i < n -> Forall (fun j => j < n) js ->
  let cp' := foldl (fun cp j => if i =? j then cp else set2 cp i j (v j))
                   cp js in
  shaped n n cp' /\
  forall a b, a < n -> b < n ->
    at2 cp' a b = if decide (a = i /\ b ∈ js /\ a <> b) then v b
                  else at2 cp a b.
Proof.
  induction js as [|j js IH]; intros cp Hcp Hi Hjs; cbn [foldl].
  - split; [done|]. intros a b _ _. rewrite decide_False; [done|].
    intros (_ & H & _). by apply elem_of_nil in H.
  - apply Forall_cons in Hjs as [Hj Hjs].
    destruct (i =? j) eqn:Eij.
    + apply Nat.eqb_eq in Eij. subst j.
      destruct (IH cp Hcp Hi Hjs) as [Hsh Hat]. split; [done|].
      intros a b Ha Hb. rewrite Hat by done.
      destruct (decide (a = i /\ b ∈ js /\ a <> b)) as [H|H].
      * rewrite decide_True; [done|]. destruct H as (? & ? & ?).
        repeat split; try done. by right.
      * rewrite decide_False; [done|]. intros (-> & Hin & Hne).
        apply elem_of_cons in Hin as [->|Hin]; [done|]. by apply H.
    + apply Nat.eqb_neq in Eij.
      destruct (IH (set2 cp i j (v j))) as [Hsh Hat]; try done.
      { by apply shaped_set2. }
      split; [done|]. intros a b Ha Hb. rewrite Hat by done.
      rewrite (at2_set2 n n) by done.
      destruct (decide (a = i /\ b ∈ js /\ a <> b)) as [H|H].
      * rewrite decide_True; [done|]. destruct H as (? & ? & ?).
        repeat split; try done. by right.
      * destruct (decide (a = i /\ b = j)) as [[-> ->]|H'].
        -- rewrite decide_True; [done|]. repeat split; try done. by left.
        -- rewrite decide_False; [done|]. intros (-> & Hin & Hne).
           apply elem_of_cons in Hin as [->|Hin]; [by apply H'|].
           by apply H.
Qed.

Lemma outer_fold_spec n (v : nat -> nat -> F) js is_ : forall cp,
  shaped n n cp -> Forall (fun i => i < n) is_ ->
  Forall (fun j => j < n) js ->
  let cp' := foldl (fun cp i =>
                      foldl (fun cp j =>
                               if i =? j then cp else set2 cp i j (v i j))
                            cp js)
                   cp is_ in
  shaped n n cp' /\
  forall a b, a < n -> b < n ->
    at2 cp' a b = if decide (a ∈ is_ /\ b ∈ js /\ a <> b) then v a b
                  else at2 cp a b.
Proof.
  induction is_ as [|i is_ IH]; intros cp Hcp His Hjs; cbn [foldl].
  - split; [done|]. intros a b _ _. rewrite decide_False; [done|].
    intros (H & _). by apply elem_of_nil in H.
  - apply Forall_cons in His as [Hi His].
    destruct (pair_fold_spec n (v i) i js cp Hcp Hi Hjs) as [Hsh1 Hat1].
    destruct (IH _ Hsh1 His Hjs) as [Hsh Hat].
    split; [done|]. intros a b Ha Hb. rewrite Hat, Hat1 by done.
    destruct (decide (a ∈ is_ /\ b ∈ js /\ a <> b)) as [H|H].
    + rewrite decide_True; [done|]. destruct H as (? & ? & ?).
      repeat split; try done. by right.
    + destruct (decide (a = i /\ b ∈ js /\ a <> b)) as [(-> & ? & ?)|H'].
      * rewrite decide_True; [done|]. repeat split; try done. by left.
      * rewrite decide_False; [done|]. intros (Hin & ? & ?).
        apply elem_of_cons in Hin as [->|Hin]; [by apply H'|by apply H].
Qed.

Lemma fill_pairs_shaped E n idxs :
  Forall (fun i => i < n) idxs -> shaped n n (fill_pairs E n idxs).
Proof.
  intros Hidx.
  by destruct (outer_fold_spec n
    (fun i j => fsum (triplet_row E n idxs i j)) idxs idxs
    (zeros2 n n) (shaped_zeros2 n n) Hidx Hidx) as [H _].
Qed.

(** [cp] after the loops, entry by entry. *)
Lemma fill_pairs_at2 E n idxs a b :
  Forall (fun i => i < n) idxs -> a < n -> b < n ->
  at2 (fill_pairs E n idxs) a b =
    if decide (a ∈ idxs /\ b ∈ idxs /\ a <> b)
    then fsum (triplet_row E n idxs a b) else fzero.
Proof.
  intros Hidx Ha Hb.
  destruct (outer_fold_spec n
    (fun i j => fsum (triplet_row E n idxs i j)) idxs idxs
    (zeros2 n n) (shaped_zeros2 n n) Hidx Hidx) as [_ H].
  unfold fill_pairs. rewrite H by done. by rewrite at2_zeros2.
Qed.
End TransformFacts.

(** ** The transform returns *)
Section TransformTheorems.
Context {F : Type} `{!Scalar F} `{!Exp F}.
Implicit Types (S : SimilarityMatrix F) (subset : list string).

Lemma constructed_shaped (M : LabelledSymmetricMatrix F) :
  constructed M <->
  shaped (length (labels M)) (length (labels M)) (matrix M).
Proof. apply has_shape_shaped. Qed.

Lemma init_Ok (m : list (list F)) l :
  shaped (length l) (length l) m ->
  LabelledSymmetricMatrix_init m l = Ok (Build_LSM m l).
Proof.
  intros H. apply has_shape_shaped in H.
  unfold LabelledSymmetricMatrix_init. by rewrite H.
Qed.

Lemma averaged_pairs_shaped E n idxs m :
  Forall (fun i => i < n) idxs -> shaped n n (averaged_pairs E n idxs m).
Proof. intros. by apply shaped_mat_map, fill_pairs_shaped. Qed.

Lemma force_symmetry_shaped n (cp : list (list F)) :
  shaped n n cp -> shaped n n (force_symmetry cp).
Proof.
  intros. apply shaped_mat_map, shaped_mat_add; [done|].
  by apply shaped_transpose.
Qed.

Lemma force_symmetry_at2 n (cp : list (list F)) i j :
  shaped n n cp -> i < n -> j < n ->
  at2 (force_symmetry cp) i j =
    fdiv (fadd (at2 cp i j) (at2 cp j i)) (fnat 2).
Proof.
  intros Hcp Hi Hj. unfold force_symmetry.
  rewrite (at2_mat_map n n), (at2_mat_add n n), (at2_transpose n);
    try done.
  - by apply shaped_transpose.
  - apply shaped_mat_add; [done|]. by apply shaped_transpose.
Qed.

Lemma transform_array_shaped S subset :
  shaped (length (labels S)) (length (labels S))
         (transform_array S subset).
Proof.
  apply shaped_fill_diagonal, force_symmetry_shaped, averaged_pairs_shaped.
  apply find_indices_lt.
Qed.

(** With every requested label present the transform returns, and what
    it returns is the selection from [transform_array]. *)
Lemma transform_returns S subset :
  Forall (fun w => w ∈ labels S) subset ->
  mean_softmax_probability_matrix S (Some subset) =
    Ok (as_SimilarityMatrix
          (Build_LSM
             (select (transform_array S subset)
                     (find_indices (labels S) subset)
                     (find_indices (labels S) subset))
             subset)).
Proof.
  intros Hin. apply find_indices_length in Hin.
  unfold mean_softmax_probability_matrix. cbv zeta.
  change (default (labels S) (Some subset)) with subset.
  rewrite Hin, Nat.eqb_refl. cbn [assert mbind result_bind].
  fold (transform_array S subset).
  rewrite (getitem_ix_Ok (length (labels S)));
    [|apply transform_array_shaped|apply find_indices_lt].
  cbn [mbind result_bind]. unfold SimilarityMatrix_init.
  rewrite init_Ok; [done|].
  rewrite <- Hin at 1 2. apply shaped_select.
Qed.
End TransformTheorems.

(** ** The entries of the transform *)
Section TransformTheorems2.
Context {F : Type} `{!Scalar F} `{!Exp F}.
Implicit Types (S : SimilarityMatrix F) (subset : list string).

Lemma softmax_term_exp n (M : list (list F)) i j k :
  shaped n n M -> i < n -> j < n -> k < n ->
  softmax_term (mat_map fexp M) i j k = softmax_probability M i j k.
Proof.
  intros HM Hi Hj Hk. unfold softmax_term, softmax_probability.
  by rewrite !(at2_mat_map n n).
Qed.

(** [cp /= len(subset_labels)] leaves, at a pair of distinct subset
    positions, the mean of the triplet probabilities over the thirds of
    the subset. *)
Lemma averaged_pairs_at2 n (M : list (list F)) idxs m i j :
  shaped n n M -> Forall (fun i => i < n) idxs ->
  i ∈ idxs -> j ∈ idxs -> i <> j ->
  at2 (averaged_pairs (mat_map fexp M) n idxs m) i j =
    pair_mean (in_subset idxs) M n m i j.
Proof.
  intros HM Hidx Hi Hj Hij.
  assert (i < n) as Hin by (rewrite Forall_forall in Hidx; auto).
  assert (j < n) as Hjn by (rewrite Forall_forall in Hidx; auto).
  unfold averaged_pairs, pair_mean.
  rewrite (at2_mat_map n n); [|by apply fill_pairs_shaped|done|done].
  rewrite fill_pairs_at2, decide_True by done.
  f_equal. f_equal. rewrite triplet_row_map.
  apply list_eq. intros k. rewrite !list_lookup_fmap.
  destruct (seq 0 n !! k) as [k'|] eqn:Ek; [|done].
  cbn [fmap option_fmap option_map].
  apply lookup_seq in Ek as [Ek Hk]. simpl in Ek. subst k'. f_equal.
  unfold in_subset.
  destruct (decide (k ∈ idxs /\ k <> i /\ k <> j)) as [(H1 & H2 & H3)|H].
  - rewrite bool_decide_eq_true_2 by done.
    apply Nat.eqb_neq in H2, H3. rewrite H2, H3. simpl.
    by apply (softmax_term_exp n).
  - destruct (bool_decide (k ∈ idxs)) eqn:E1; [|done].
    apply bool_decide_eq_true in E1.
    destruct (k =? i) eqn:E2; [done|]. destruct (k =? j) eqn:E3; [done|].
    apply Nat.eqb_neq in E2, E3. tauto.
Qed.

(** An entry of the returned matrix, read in the array selected from. *)
Lemma transform_entry S subset a b i j :
  find_indices (labels S) subset !! a = Some i ->
  find_indices (labels S) subset !! b = Some j ->
  at2 (select (transform_array S subset)
              (find_indices (labels S) subset)
              (find_indices (labels S) subset)) a b =
    if decide (i = j) then fone
    else
      let cp := averaged_pairs (mat_map fexp (matrix S))
                  (length (labels S)) (find_indices (labels S) subset)
                  (length subset) in
      fdiv (fadd (at2 cp i j) (at2 cp j i)) (fnat 2).
Proof.
  intros Ha Hb.
  pose proof (find_indices_lt (labels S) subset) as Hlt.
  assert (i < length (labels S)) as Hi.
  { rewrite Forall_lookup in Hlt. by eapply Hlt. }
  assert (j < length (labels S)) as Hj.
  { rewrite Forall_lookup in Hlt. by eapply Hlt. }
  rewrite (at2_select _ _ _ a b i j) by done.
  unfold transform_array.
  rewrite (at2_fill_diagonal (length (labels S)) (length (labels S)));
    [|by apply force_symmetry_shaped, averaged_pairs_shaped|done|done].
  destruct (decide (i = j)); [done|].
  by rewrite (force_symmetry_at2 (length (labels S)));
    [|apply averaged_pairs_shaped|..].
Qed.
End TransformTheorems2.

(** ** Narrowing *)
Section NarrowFacts.
Context {F : Type} `{!Scalar F} `{!Exp F}.
Implicit Types (S : SimilarityMatrix F) (subset : list string).

Lemma select_seq n (M : list (list F)) :
  shaped n n M -> select M (seq 0 n) (seq 0 n) = M.
Proof.
  intros HM. apply (shaped_ext n n); [|done|].
  - pose proof (shaped_select M (seq 0 n) (seq 0 n)) as H.
    by rewrite length_seq in H.
  - intros i j Hi Hj. apply at2_select; by apply lookup_seq_lt.
Qed.

Lemma find_indices_complete (l sub : list string) w k :
  NoDup l -> l !! k = Some w -> w ∈ sub -> k ∈ find_indices l sub.
Proof.
  intros Hnd Hk. induction sub as [|x sub IH]; intros Hw.
  - by apply elem_of_nil in Hw.
  - rewrite find_indices_cons. apply elem_of_cons in Hw as [<-|Hw].
    + rewrite (index_of_lookup_NoDup l k w) by done. by left.
    + destruct (index_of x l); [right|]; by apply IH.
Qed.

(** The loops read [idxs] as a set. *)
Lemma averaged_pairs_ext (E : list (list F)) n idxs idxs' m :
  Forall (fun i => i < n) idxs -> Forall (fun i => i < n) idxs' ->
  (forall k, k ∈ idxs <-> k ∈ idxs') ->
  averaged_pairs E n idxs m = averaged_pairs E n idxs' m.
Proof.
  intros H1 H2 Hiff. unfold averaged_pairs. f_equal.
  apply (shaped_ext n n); try by apply fill_pairs_shaped.
  intros a b Ha Hb. rewrite !fill_pairs_at2 by done.
  rewrite !triplet_row_map.
  rewrite (decide_ext _ (a ∈ idxs' /\ b ∈ idxs' /\ a <> b))
    by (rewrite !Hiff; tauto).
  destruct (decide (a ∈ idxs' /\ b ∈ idxs' /\ a <> b)); [|done].
  f_equal. apply list_fmap_ext. intros _ k _.
  apply decide_ext. rewrite Hiff. tauto.
Qed.
End NarrowFacts.

(** ** The transform: theorems *)
Section Evaluation.
Context {F : Type} `{!Scalar F} `{!Exp F}.
Variables x00 x01 x02 x10 x11 x12 x20 x21 x22 : F.
Local Abbreviation s3 := (sim3 x00 x01 x02 x10 x11 x12 x20 x21 x22).

(** The transform of three conditions for the subset ["a", "b"], run. *)
Lemma subset_first_ab :
  subset_first s3 ["a"; "b"] =
    Ok (as_SimilarityMatrix
          (Build_LSM
             [[fone;
               fdiv (fadd (fdiv (fsum [fzero; fzero; fzero]) (fnat 2))
                          (fdiv (fsum [fzero; fzero; fzero]) (fnat 2)))
                    (fnat 2)];
              [fdiv (fadd (fdiv (fsum [fzero; fzero; fzero]) (fnat 2))
                          (fdiv (fsum [fzero; fzero; fzero]) (fnat 2)))
                    (fnat 2);
               fone]]
             ["a"; "b"])).
Proof. reflexivity. Qed.

(** The transform over all three conditions, then narrowed. *)
Lemma full_then_narrow_ab :
  full_then_narrow s3 ["a"; "b"] =
    Ok (as_SimilarityMatrix
          (Build_LSM
             [[fone;
               fdiv (fadd
                 (fdiv (fsum [fzero; fzero;
                              softmax_probability (matrix s3) 0 1 2])
                       (fnat 3))
                 (fdiv (fsum [fzero; fzero;
                              softmax_probability (matrix s3) 1 0 2])
                       (fnat 3)))
                 (fnat 2)];
              [fdiv (fadd
                 (fdiv (fsum [fzero; fzero;
                              softmax_probability (matrix s3) 1 0 2])
                       (fnat 3))
                 (fdiv (fsum [fzero; fzero;
                              softmax_probability (matrix s3) 0 1 2])
                       (fnat 3)))
                 (fnat 2);
               fone]]
             ["a"; "b"])).
Proof. reflexivity. Qed.
End Evaluation.

Section MainTransform.
Context {F : Type} `{!Scalar F} `{!Exp F}.
Implicit Types (S : SimilarityMatrix F) (subset : list string).



End MainTransform.

(** ** The transform: runs *)
Lemma flat3_constructed : constructed flat3.
Proof. reflexivity. Qed.

Lemma ab_in_flat3 : Forall (fun w => w ∈ labels flat3) ["a"; "b"].
Proof. apply find_indices_length. reflexivity. Qed.

Lemma abc_NoDup : NoDup abc.
Proof. apply (bool_decide_unpack _). by vm_compute. Qed.






(** ** Similarity and dissimilarity *)
Section RoundTrip.
Context {F : Type} `{!Scalar F}.

(** C7 (as the code has it): [from_rdm] after [from_similarity_matrix]
    returns the labels as they were and, entry for entry, [1 - (1 - x)]
    computed in the arithmetic of the matrix; the matrix is the one that
    went in whenever every entry survives the two subtractions, which
    all do in exact arithmetic and not all do in binary64. *)
Theorem from_rdm_from_similarity_matrix (S : SimilarityMatrix F) :
  constructed S ->
  exists D R,
    from_similarity_matrix S = Ok D /\
    from_rdm D = Ok R /\
    labels R = labels S /\
    matrix R = mat_map (fun x => fsub fone (fsub fone x)) (matrix S) /\
    (Forall (Forall survives_complement) (matrix S) ->
     matrix R = matrix S).
Proof.
  intros HS. apply constructed_shaped in HS.
  unfold from_similarity_matrix, from_rdm, RDM_init, SimilarityMatrix_init.
  rewrite init_Ok by by apply shaped_mat_map.
  cbn [fmap result_fmap]. eexists. eexists. split; [reflexivity|].
  cbn [matrix labels rdm_base].
  rewrite init_Ok by by do 2 apply shaped_mat_map.
  cbn [fmap result_fmap]. split; [reflexivity|].
  cbn [matrix labels sm_base]. split; [done|].
  assert (mat_map (fsub fone) (mat_map (fsub fone) (matrix S))
          = mat_map (fun x => fsub fone (fsub fone x)) (matrix S)) as ->.
  { unfold mat_map. rewrite <- list_fmap_compose.
    apply list_fmap_ext. intros _ row _. simpl.
    by rewrite <- list_fmap_compose. }
  split; [done|]. intros Hall. unfold mat_map.
  rewrite <- (list_fmap_id (matrix S)) at 2.
  apply Forall_fmap_ext. eapply Forall_impl; [exact Hall|].
  intros row Hrow. simpl. rewrite <- (list_fmap_id row) at 2.
  by apply Forall_fmap_ext.
Qed.
End RoundTrip.

Lemma from_rdm_from_similarity_matrix_witness :
  exists D R,
    from_similarity_matrix half2 = Ok D /\
    from_rdm D = Ok R /\
    labels R = labels half2 /\
    matrix R = matrix half2.
Proof.
  destruct (from_rdm_from_similarity_matrix half2 eq_refl)
    as (D & R & HD & HR & HL & _ & HM).
  exists D, R. split; [exact HD|]. split; [exact HR|]. split; [exact HL|].
  apply HM. repeat constructor.
Defined.

(** C7, as the spec words it, fails in the arithmetic the program runs:
    a similarity of 0.1 comes back as 0.09999999999999998. *)
Lemma from_rdm_from_similarity_matrix_not_exact :
  exists D R,
    from_similarity_matrix tenth2 = Ok D /\
    from_rdm D = Ok R /\
    at2 (matrix tenth2) 0 1 = 0x1.999999999999ap-4%float /\
    at2 (matrix R) 0 1 = 0x1.9999999999998p-4%float /\
    matrix R <> matrix tenth2.
Proof.
  eexists. eexists. split; [reflexivity|]. split; [reflexivity|].
  split; [reflexivity|]. split; [reflexivity|].
  intros H. apply (f_equal (fun M => feqb (at2 M 0 1) (at2 (matrix tenth2) 0 1))) in H.
  vm_compute in H. discriminate.
Qed.

(** ** The randomisation loop *)
Section RandomisationFacts.
Context {F : Type} `{!Scalar F} {G : Type} `{!RandomState G}.
Implicit Types (X Y rdm : list (list F)) (perm : list nat) (g : G).

Lemma is_valid_dm_spec X :
  is_valid_dm X = true <->
  (forall i j, i < length X -> j < length X ->
     feqb (at2 X i j) (at2 X j i) = true) /\
  (forall i, i < length X -> feqb (at2 X i i) fzero = true).
Proof.
  unfold is_valid_dm. rewrite andb_true_iff, !forallb_forall.
  split; intros [H1 H2]; split.
  - intros i j Hi Hj.
    specialize (H1 i). rewrite forallb_forall in H1.
    apply H1; apply in_seq; lia.
  - intros i Hi. apply H2, in_seq. lia.
  - intros i Hi. apply forallb_forall. intros j Hj.
    apply in_seq in Hi, Hj. apply H1; lia.
  - intros i Hi. apply in_seq in Hi. apply H2. lia.
Qed.

Lemma squareform_valid n X :
  valid_dm n X -> squareform X = Ok (upper_triangle X).
Proof.
  intros [Hsh Hv]. unfold squareform. cbv zeta.
  assert (length X = n) as -> by by destruct Hsh.
  apply has_shape_shaped in Hsh. by rewrite Hsh, Hv.
Qed.

Lemma upper_triangle_length X Y :
  length X = length Y ->
  length (upper_triangle X) = length (upper_triangle Y).
Proof.
  intros Hl. unfold upper_triangle. cbv zeta. rewrite Hl.
  induction (seq 0 (length Y)) as [|i l IH]; [done|].
  cbn [flat_map]. by rewrite !length_app, !length_map, IH.
Qed.

Lemma Permutation_seq_lt n perm :
  perm ≡ₚ seq 0 n -> Forall (fun i => i < n) perm.
Proof.
  intros Hp. apply Forall_forall. intros i Hi.
  rewrite Hp in Hi. apply elem_of_seq in Hi. lia.
Qed.

Lemma Permutation_seq_length n perm : perm ≡ₚ seq 0 n -> length perm = n.
Proof. intros Hp. by rewrite (Permutation_length Hp), length_seq. Qed.

(** Permuting rows and columns together keeps a matrix acceptable. *)
Lemma valid_dm_select n X perm :
  valid_dm n X -> perm ≡ₚ seq 0 n -> valid_dm n (select X perm perm).
Proof.
  intros [Hsh Hv] Hp.
  pose proof (Permutation_seq_length n perm Hp) as Hlen.
  pose proof (Permutation_seq_lt n perm Hp) as Hlt.
  assert (length X = n) as HX by by destruct Hsh.
  split.
  - pose proof (shaped_select X perm perm) as H. by rewrite Hlen in H.
  - apply is_valid_dm_spec in Hv as [H1 H2]. rewrite HX in H1, H2.
    rewrite Forall_lookup in Hlt.
    assert (length (select X perm perm) = n) as Hs.
    { unfold select. by rewrite length_map. }
    apply is_valid_dm_spec. rewrite Hs. split.
    + intros a b Ha Hb.
      destruct (lookup_lt_is_Some_2 perm a ltac:(lia)) as [i Hi].
      destruct (lookup_lt_is_Some_2 perm b ltac:(lia)) as [j Hj].
      rewrite (at2_select X perm perm a b i j),
              (at2_select X perm perm b a j i) by done.
      apply H1; by eapply Hlt.
    + intros a Ha.
      destruct (lookup_lt_is_Some_2 perm a ltac:(lia)) as [i Hi].
      rewrite (at2_select X perm perm a a i i) by done.
      apply H2. by eapply Hlt.
Qed.

(** One turn of the loop. *)
Lemma permutation_step_Ok n rdm_1 rdm_2 perm_i (r_perms : list F) g :
  valid_dm n rdm_1 -> valid_dm n rdm_2 ->
  permutation_step (upper_triangle rdm_1) rdm_1 rdm_2 perm_i (r_perms, g)
  = Ok (<[perm_i :=
            permuted_correlation rdm_1 rdm_2 (permutation n g).1]> r_perms,
        (permutation n g).2).
Proof.
  intros H1 H2. unfold permutation_step, shape0.
  assert (length rdm_1 = n) as -> by by destruct H1 as [[? _] _].
  cbn [fst snd].
  pose proof (permutation_Permutation n g) as Hp.
  destruct (permutation n g) as [perm g1]. cbn [fst snd] in *.
  rewrite (getitem_ix_Ok n);
    [|by destruct H2|by apply Permutation_seq_lt].
  cbn [mbind result_bind].
  rewrite (squareform_valid n) by by apply valid_dm_select.
  cbn [mbind result_bind]. unfold corrcoef01.
  rewrite (upper_triangle_length rdm_1 (select rdm_2 perm perm)).
  - by rewrite Nat.eqb_refl.
  - destruct H1 as [[-> _] _]. unfold select.
    by rewrite length_map, (Permutation_seq_length n).
Qed.

Lemma draws_S n k g :
  draws n (S k) g =
    ((permutation n g).1 :: (draws n k (permutation n g).2).1,
     (draws n k (permutation n g).2).2).
Proof.
  cbn [draws]. destruct (permutation n g) as [perm g1]. cbn [fst snd].
  by destruct (draws n k g1).
Qed.

Lemma draws_length n k : forall g, length (draws n k g).1 = k.
Proof.
  induction k as [|k IH]; intros g; [done|].
  rewrite draws_S. cbn [fst length]. by rewrite IH.
Qed.

Lemma draws_Permutation n k : forall g,
  Forall (fun perm => perm ≡ₚ seq 0 n) (draws n k g).1.
Proof.
  induction k as [|k IH]; intros g; [by constructor|].
  rewrite draws_S. cbn [fst]. constructor; [|apply IH].
  apply permutation_Permutation.
Qed.

(** The loop [for perm_i in range(n_perms)], from any turn on. *)
Lemma permutation_loop n rdm_1 rdm_2 k :
  valid_dm n rdm_1 -> valid_dm n rdm_2 ->
  forall s (filled : list F) g,
    length filled = s ->
    for_ (seq s k) (filled ++ zeros k, g)
         (permutation_step (upper_triangle rdm_1) rdm_1 rdm_2)
    = Ok (filled ++ map (permuted_correlation rdm_1 rdm_2) (draws n k g).1,
          (draws n k g).2).
Proof.
  intros H1 H2. induction k as [|k IH]; intros s filled g Hs.
  - done.
  - cbn [seq for_]. rewrite (permutation_step_Ok n) by done.
    cbn [mbind result_bind]. unfold zeros. cbn [replicate].
    rewrite insert_app_r_alt by lia.
    rewrite Hs, Nat.sub_diag. cbn [insert list_insert].
    rewrite (cons_middle _ filled), app_assoc.
    fold (zeros (F := F) k).
    rewrite (IH (S s)) by (rewrite length_app; simpl; lia).
    rewrite draws_S. cbn [fst snd map].
    by rewrite <- app_assoc.
Qed.

Lemma null_distribution_Ok n rdm_1 rdm_2 n_perms g :
  valid_dm n rdm_1 -> valid_dm n rdm_2 ->
  null_distribution rdm_1 rdm_2 n_perms g =
    Ok (map (permuted_correlation rdm_1 rdm_2) (draws n n_perms g).1,
        (draws n n_perms g).2).
Proof.
  intros H1 H2. unfold null_distribution.
  rewrite (squareform_valid n) by done. cbn [mbind result_bind].
  by rewrite (permutation_loop n rdm_1 rdm_2 n_perms H1 H2 0 []).
Qed.

Lemma randomisation_p_Ok n rdm_1 rdm_2 observed_r n_perms g :
  valid_dm n rdm_1 -> valid_dm n rdm_2 ->
  randomisation_p rdm_1 rdm_2 observed_r n_perms g =
    Ok (fsub fone
          (fdiv (percentileofscore
                   (map (permuted_correlation rdm_1 rdm_2)
                        (draws n n_perms g).1)
                   observed_r)
                (fnat 100)),
        (draws n n_perms g).2).
Proof.
  intros H1 H2. unfold randomisation_p.
  by rewrite (null_distribution_Ok n).
Qed.

(** The script's [randomisation_p] is the module's on 48 conditions. *)
Lemma Hebart_randomisation_p_48 rdm_1 rdm_2 observed_r n_perms g :
  shape0 rdm_1 = 48 ->
  Hebart.randomisation_p rdm_1 rdm_2 observed_r n_perms g =
    randomisation_p rdm_1 rdm_2 observed_r n_perms g.
Proof.
  intros H48.
  unfold Hebart.randomisation_p, randomisation_p, null_distribution.
  destruct (squareform rdm_1) as [c1|e]; [|done]. cbn [mbind result_bind].
  assert (Hebart.permutation_step c1 rdm_2
          = permutation_step c1 rdm_1 rdm_2) as ->; [|done].
  unfold Hebart.permutation_step, permutation_step. by rewrite H48.
Qed.
End RandomisationFacts.

(** ** The percentile rank in exact arithmetic *)
Section RealCounts.
Implicit Types (x y s : R) (l : list R).

Lemma R_fltb_spec x y : fltb x y = true <-> (x < y)%R.
Proof. cbn. destruct (Rlt_dec x y); split; (done || lra). Qed.

Lemma R_fleb_spec x y : fleb x y = true <-> (x <= y)%R.
Proof. cbn. destruct (Rle_dec x y); split; (done || lra). Qed.

Lemma R_feqb_refl x : feqb x x = true.
Proof. cbn. by destruct (Req_dec_T x x). Qed.

Lemma count_nonzero_cons {F : Type} (cond : F -> bool) (x : F) (v : list F) :
  count_nonzero cond (x :: v) =
    (if cond x then 1 else 0) + count_nonzero cond v.
Proof.
  unfold count_nonzero. rewrite filter_cons.
  destruct (cond x); by destruct (decide _).
Qed.

Lemma count_nonzero_le {F : Type} (cond : F -> bool) (v : list F) :
  count_nonzero cond v <= length v.
Proof. apply length_filter. Qed.

(** Below the score or not: every entry is counted once. *)
Lemma count_below_geq s l :
  count_nonzero (fun x => fltb x s) l + count_nonzero (fun x => fleb s x) l
  = length l.
Proof.
  induction l as [|x l IH]; [done|].
  rewrite !count_nonzero_cons. cbn [length].
  destruct (fltb x s) eqn:E1; destruct (fleb s x) eqn:E2;
    try apply R_fltb_spec in E1; try apply R_fleb_spec in E2;
    try lia.
  - lra.
  - exfalso. destruct (Rlt_dec x s) as [H|H].
    + apply R_fltb_spec in H. congruence.
    + assert (s <= x)%R as H' by lra. apply R_fleb_spec in H'. congruence.
Qed.

Lemma count_notabove_above s l :
  count_nonzero (fun x => fleb x s) l + count_nonzero (fun x => fltb s x) l
  = length l.
Proof.
  induction l as [|x l IH]; [done|].
  rewrite !count_nonzero_cons. cbn [length].
  destruct (fleb x s) eqn:E1; destruct (fltb s x) eqn:E2;
    try apply R_fleb_spec in E1; try apply R_fltb_spec in E2;
    try lia.
  - lra.
  - exfalso. destruct (Rle_dec x s) as [H|H].
    + apply R_fleb_spec in H. congruence.
    + assert (s < x)%R as H' by lra. apply R_fltb_spec in H'. congruence.
Qed.

(** [left <= right], with equality exactly when no entry is the score. *)
Lemma count_below_notabove s l :
  count_nonzero (fun x => fltb x s) l <= count_nonzero (fun x => fleb x s) l
  /\ (s ∈ l -> count_nonzero (fun x => fltb x s) l
               < count_nonzero (fun x => fleb x s) l)
  /\ (s ∉ l -> count_nonzero (fun x => fltb x s) l
               = count_nonzero (fun x => fleb x s) l).
Proof.
  induction l as [|x l (IH1 & IH2 & IH3)].
  - repeat split; try done. intros H. by apply elem_of_nil in H.
  - rewrite !count_nonzero_cons.
    assert (fltb x s = true -> fleb x s = true) as Himp.
    { rewrite R_fltb_spec, R_fleb_spec. lra. }
    destruct (fltb x s) eqn:E1; destruct (fleb x s) eqn:E2;
      try (specialize (Himp eq_refl); discriminate).
    + repeat split; [lia| |].
      * intros [->|H]%elem_of_cons; [apply R_fltb_spec in E1; lra|].
        specialize (IH2 H). lia.
      * intros [_ H]%not_elem_of_cons. specialize (IH3 H). lia.
    + repeat split; [lia|lia|].
      intros [Hne H]%not_elem_of_cons. exfalso.
      apply R_fleb_spec in E2.
      destruct (Rlt_dec x s) as [H'|H'].
      * apply R_fltb_spec in H'. congruence.
      * apply Hne. lra.
    + repeat split; [lia| |].
      * intros [->|H]%elem_of_cons.
        -- pose proof (proj2 (R_fleb_spec x x) ltac:(lra)). congruence.
        -- specialize (IH2 H). lia.
      * intros [_ H]%not_elem_of_cons. specialize (IH3 H). lia.
Qed.

(** The p-value formula of [randomisation_p] in exact arithmetic, by the
    counts of null values above and not below the observed one. *)
Lemma p_value_counts s l :
  0 < length l ->
  let p := fsub fone (fdiv (percentileofscore l s) (fnat 100)) in
  (s ∈ l ->
   p = ((INR (count_nonzero (fun x => fltb s x) l)
         + INR (count_nonzero (fun x => fleb s x) l) - 1)
        / (2 * INR (length l)))%R) /\
  (s ∉ l ->
   p = (INR (count_nonzero (fun x => fleb s x) l) / INR (length l))%R).
Proof.
  intros Hn p. subst p. unfold percentileofscore.
  rewrite R_feqb_refl. cbn [negb].
  pose proof (count_below_geq s l) as H1.
  pose proof (count_notabove_above s l) as H2.
  destruct (count_below_notabove s l) as (H3 & H4 & H5).
  set (left := count_nonzero (fun x => fltb x s) l) in *.
  set (right := count_nonzero (fun x => fleb x s) l) in *.
  set (above := count_nonzero (fun x => fltb s x) l) in *.
  set (geq := count_nonzero (fun x => fleb s x) l) in *.
  assert (INR (length l) <> 0%R) as Hn0.
  { apply not_0_INR. lia. }
  assert (@fnat R _ 50 = 50%R) as -> by (cbn; lra).
  assert (@fnat R _ 100 = 100%R) as -> by (cbn; lra).
  assert (INR left = INR (length l) - INR geq)%R as HL.
  { rewrite <- H1, plus_INR. lra. }
  assert (INR right = INR (length l) - INR above)%R as HR.
  { rewrite <- H2, plus_INR. lra. }
  change (@fmul R _) with Rmult. change (@fdiv R _) with Rdiv.
  change (@fsub R _) with Rminus. change (@fone R _) with 1%R.
  change (@fnat R _) with INR.
  split; intros Hs.
  - specialize (H4 Hs). apply Nat.ltb_lt in H4. rewrite H4.
    rewrite !plus_INR, HL, HR. cbn [INR]. field. done.
  - specialize (H5 Hs). rewrite H5, Nat.ltb_irrefl, Nat.add_0_r.
    rewrite plus_INR, <- H5, HL. field. done.
Qed.
End RealCounts.

(** ** The randomisation test: theorems *)
Lemma d3_valid : valid_dm 3 d3.
Proof. split; [by apply has_shape_shaped|reflexivity]. Qed.

Lemma z3_valid : valid_dm 3 z3.
Proof. split; [by apply has_shape_shaped|reflexivity]. Qed.

Lemma r2_valid : valid_dm 2 r2.
Proof.
  split; [by apply has_shape_shaped|].
  apply is_valid_dm_spec. split.
  - intros [|[|i]] [|[|j]] Hi Hj; simpl in Hi, Hj; try lia;
      cbn; by destruct (Req_dec_T _ _).
  - intros [|[|i]] Hi; simpl in Hi; try lia;
      cbn; by destruct (Req_dec_T _ _).
Qed.

Section RandomisationTheorems.
Context {F : Type} `{!Scalar F} {G : Type} `{!RandomState G}.


End RandomisationTheorems.




Section PercentileTheorem.
Context {G : Type} `{!RandomState G}.

End PercentileTheorem.




(** ** The script transform and absent words *)
Section SearchSorted.
Implicit Types (a v : list string) (key : string).

Lemma binsearch_left_bounds fuel a key : forall lo hi,
  lo <= hi ->
  lo <= binsearch_left fuel a key lo hi <= hi.
Proof.
  induction fuel as [|fuel IH]; intros lo hi Hle; cbn [binsearch_left];
    [lia|].
  destruct (lo <? hi) eqn:E; [|lia]. apply Nat.ltb_lt in E.
  pose proof (Nat.div_lt (hi - lo) 2 ltac:(lia) ltac:(lia)) as Hhalf.
  destruct (a !! (lo + (hi - lo) / 2)) as [x|]; [|lia].
  destruct (String.ltb x key).
  - specialize (IH (lo + (hi - lo) / 2 + 1) hi ltac:(lia)). lia.
  - specialize (IH lo (lo + (hi - lo) / 2) ltac:(lia)). lia.
Qed.

(** [searchsorted] answers every key, present or not. *)
Lemma searchsorted_length a v : length (searchsorted a v) = length v.
Proof. unfold searchsorted. apply length_map. Qed.

Lemma searchsorted_le a v :
  Forall (fun k => k <= length a) (searchsorted a v).
Proof.
  unfold searchsorted. apply Forall_map, Forall_forall. intros key _.
  simpl. apply binsearch_left_bounds. lia.
Qed.

(** A key above every entry is answered with the length of the array. *)
Lemma binsearch_left_above fuel a key : forall lo,
  Forall (fun x => String.ltb x key = true) a ->
  lo <= length a -> length a - lo <= fuel ->
  binsearch_left fuel a key lo (length a) = length a.
Proof.
  induction fuel as [|fuel IH]; intros lo Hall Hlo Hfuel;
    cbn [binsearch_left]; [lia|].
  destruct (lo <? length a) eqn:E.
  - apply Nat.ltb_lt in E.
    pose proof (Nat.div_lt (length a - lo) 2 ltac:(lia) ltac:(lia))
      as Hhalf.
    destruct (lookup_lt_is_Some_2 a (lo + (length a - lo) / 2)
                ltac:(lia)) as [x Hx].
    rewrite Hx. rewrite Forall_lookup in Hall. rewrite (Hall _ _ Hx).
    apply IH; [by apply Forall_lookup|lia|lia].
  - apply Nat.ltb_ge in E. lia.
Qed.

Lemma searchsorted_above a v key :
  key ∈ v -> Forall (fun x => String.ltb x key = true) a ->
  length a ∈ searchsorted a v.
Proof.
  intros Hin Hall. unfold searchsorted. apply list_elem_of_fmap.
  exists key. split; [|done]. symmetry.
  apply binsearch_left_above; [done|lia|lia].
Qed.
End SearchSorted.

Section HebartFacts.
Context {F : Type} `{!Scalar F} `{!Exp F}.
Implicit Types (E cp : list (list F)) (pos : list nat).

Lemma for_index_error_or {A S : Type} (P : S -> Prop)
    (body : A -> S -> result S) (xs : list A) : forall s,
  P s ->
  (forall x s, P s -> index_error_or P (body x s)) ->
  index_error_or P (for_ xs s body).
Proof.
  induction xs as [|x xs IH]; intros s Hs Hbody; [done|].
  cbn [for_]. specialize (Hbody x s Hs) as Hx.
  destruct (body x s) as [s'|e]; [|done].
  cbn [mbind result_bind]. by apply IH.
Qed.

Lemma for_Ok {A S : Type} (P : S -> Prop) (Q : A -> Prop)
    (body : A -> S -> result S) (xs : list A) : forall s,
  P s -> Forall Q xs ->
  (forall x s, Q x -> P s -> exists s', body x s = Ok s' /\ P s') ->
  exists s', for_ xs s body = Ok s' /\ P s'.
Proof.
  induction xs as [|x xs IH]; intros s Hs Hxs Hbody; [by exists s|].
  apply Forall_cons in Hxs as [Hx Hxs]. cbn [for_].
  destruct (Hbody x s Hx Hs) as (s' & -> & Hs').
  cbn [mbind result_bind]. by apply IH.
Qed.

Lemma getitem2_index_error E i j :
  index_error_or (fun _ => True) (getitem2 E i j).
Proof.
  unfold getitem2. destruct (E !! i) as [row|]; [|done].
  by destruct (row !! j).
Qed.

Lemma triplet_step_index_error n E i j k (ctmp : list F) :
  length ctmp = n ->
  index_error_or (fun c => length c = n) (Hebart.triplet_step E i j k ctmp).
Proof.
  intros Hlen. unfold Hebart.triplet_step.
  destruct ((k =? i) || (k =? j)); [done|].
  pose proof (getitem2_index_error E i j) as H1.
  destruct (getitem2 E i j); [|done]. cbn [mbind result_bind].
  pose proof (getitem2_index_error E i k) as H2.
  destruct (getitem2 E i k); [|done]. cbn [mbind result_bind].
  pose proof (getitem2_index_error E j k) as H3.
  destruct (getitem2 E j k); [|done]. cbn [mbind result_bind].
  unfold setitem. destruct (k <? length ctmp); [|done].
  cbn. by rewrite length_insert.
Qed.

Lemma setitem2_index_error n cp i j x :
  shaped n n cp -> index_error_or (shaped n n) (setitem2 cp i j x).
Proof.
  intros Hcp. unfold setitem2. destruct (cp !! i) as [row|]; [|done].
  destruct (j <? length row); [|done]. by apply shaped_set2.
Qed.

Lemma pair_step_index_error n E pos i j cp :
  shaped n n cp ->
  index_error_or (shaped n n) (Hebart.pair_step E n pos i j cp).
Proof.
  intros Hcp. unfold Hebart.pair_step.
  pose proof (for_index_error_or (fun c : list F => length c = n)
                (Hebart.triplet_step E i j) pos (zeros n)) as H.
  destruct (for_ pos (zeros n) (Hebart.triplet_step E i j)) as [ctmp|e].
  - cbn [mbind result_bind]. by apply setitem2_index_error.
  - apply H.
    + unfold zeros. by rewrite length_replicate.
    + intros k c Hc. by apply triplet_step_index_error.
Qed.

(** The loops of the script leave an [n] by [n] array or end in an
    [IndexError]. *)
Lemma pair_loops_index_error n E pos :
  index_error_or (shaped n n)
    (for_ (seq 0 n) (zeros2 n n)
       (fun i cp => for_ (seq (i + 1) (n - (i + 1))) cp
                         (Hebart.pair_step E n pos i))).
Proof.
  apply for_index_error_or; [apply shaped_zeros2|].
  intros i cp Hcp. apply for_index_error_or; [done|].
  intros j cp' Hcp'. by apply pair_step_index_error.
Qed.

Lemma triplet_step_Ok n E i j k (ctmp : list F) :
  shaped n n E -> i < n -> j < n -> k < n -> length ctmp = n ->
  exists c, Hebart.triplet_step E i j k ctmp = Ok c /\ length c = n.
Proof.
  intros HE Hi Hj Hk Hlen. unfold Hebart.triplet_step.
  destruct ((k =? i) || (k =? j)); [by exists ctmp|].
  rewrite !(getitem2_at2 n n) by done. cbn [mbind result_bind].
  unfold setitem. rewrite (proj2 (Nat.ltb_lt _ _)) by lia.
  eexists. split; [done|]. by rewrite length_insert.
Qed.

Lemma pair_step_Ok n E pos i j cp :
  shaped n n E -> Forall (fun k => k < n) pos -> i < n -> j < n ->
  shaped n n cp ->
  exists cp', Hebart.pair_step E n pos i j cp = Ok cp' /\ shaped n n cp'.
Proof.
  intros HE Hpos Hi Hj Hcp. unfold Hebart.pair_step.
  destruct (for_Ok (fun c : list F => length c = n) (fun k => k < n)
              (Hebart.triplet_step E i j) pos (zeros n))
    as (ctmp & -> & Hlen); try done.
  { unfold zeros. by rewrite length_replicate. }
  { intros k c Hk Hc. by apply (triplet_step_Ok n). }
  cbn [mbind result_bind]. unfold setitem2.
  destruct (lookup_lt_is_Some_2 cp i ltac:(destruct Hcp; lia))
    as [row Hrow].
  rewrite Hrow, (shaped_row _ _ _ _ _ Hcp Hrow).
  rewrite (proj2 (Nat.ltb_lt _ _)) by lia.
  eexists. split; [done|]. by apply shaped_set2.
Qed.

Lemma pair_loops_Ok n E pos :
  shaped n n E -> Forall (fun k => k < n) pos ->
  exists cp,
    for_ (seq 0 n) (zeros2 n n)
       (fun i cp => for_ (seq (i + 1) (n - (i + 1))) cp
                         (Hebart.pair_step E n pos i)) = Ok cp /\
    shaped n n cp.
Proof.
  intros HE Hpos.
  apply (for_Ok (shaped n n) (fun i => i < n)).
  - apply shaped_zeros2.
  - apply Forall_forall. intros i Hi. apply elem_of_seq in Hi. lia.
  - intros i cp Hi Hcp.
    apply (for_Ok (shaped n n) (fun j => j < n)); [done| |].
    + apply Forall_forall. intros j Hj. apply elem_of_seq in Hj. lia.
    + intros j cp' Hj Hcp'. by apply pair_step_Ok.
Qed.

Lemma getitem_ix_Raise n (M : list (list F)) rows cols :
  length M = n -> ~ Forall (fun i => i < n) rows ->
  getitem_ix M rows cols = Raise IndexError.
Proof.
  intros Hl Hrows. unfold getitem_ix.
  destruct (forallb (fun i => i <? length M) rows) eqn:E; [|done].
  destruct Hrows. apply Forall_forall. intros i Hi.
  rewrite forallb_forall in E. rewrite <- Hl.
  apply Nat.ltb_lt, E. by apply list_elem_of_In.
Qed.
End HebartFacts.

Section HebartTheorem.
Context {F : Type} `{!Scalar F} `{!Exp F}.

Lemma averaged_and_mirrored_shaped n m cp :
  shaped n n cp -> shaped n n (averaged_and_mirrored m cp).
Proof.
  intros Hcp. apply shaped_fill_diagonal, shaped_mat_add;
    [|apply shaped_transpose]; by apply shaped_mat_map.
Qed.

(** The assertion passed, the function is its loops and its selection. *)
Lemma mean_softmax_prob_matrix_run (all_words select_words : list string)
    (similarity_matrix : list (list F)) :
  Hebart.mean_softmax_prob_matrix all_words select_words similarity_matrix
  = cp ← for_ (seq 0 (length all_words))
           (zeros2 (length all_words) (length all_words))
           (fun i cp =>
              for_ (seq (i + 1) (length all_words - (i + 1))) cp
                (Hebart.pair_step (mat_map fexp similarity_matrix)
                   (length all_words)
                   (searchsorted all_words select_words) i));
    getitem_ix (averaged_and_mirrored (length select_words) cp)
      (searchsorted all_words select_words)
      (searchsorted all_words select_words).
Proof.
  unfold Hebart.mean_softmax_prob_matrix. cbv zeta.
  by rewrite searchsorted_length, Nat.eqb_refl.
Qed.


Variables x00 x01 x10 x11 : F.

(** The script's transform run on two conditions and the selected word
    "z", which "a" and "b" do not contain and precede. *)
Lemma mean_softmax_prob_matrix_z :
  searchsorted ["a"; "b"] ["z"] = [2] /\
  Hebart.mean_softmax_prob_matrix ["a"; "b"] ["z"]
    [[x00; x01]; [x10; x11]] = Raise IndexError.
Proof. split; reflexivity. Qed.
End HebartTheorem.


(** ** The sensorimotor predictor *)
Section PredictorTheorems.
Context {F : Type} `{!Scalar F}.
Variable distance : list F -> list F -> DistanceType -> F.
Implicit Types (sn : gmap string (list F)) (row : gmap string (cell F)).

Lemma calc_sensorimotor_distance_words sn k1 k2 dt row w1 w2 :
  row !! k1 = Some (Str w1) -> row !! k2 = Some (Str w2) ->
  calc_sensorimotor_distance distance sn k1 k2 dt row
  = Ok (predictor_cell distance sn w1 w2 dt).
Proof.
  intros H1 H2.
  unfold calc_sensorimotor_distance, try_sensorimotor_distance,
    getitem_row, predictor_cell.
  rewrite H1. cbn [mbind result_bind vector_for_word].
  destruct (sn !! w1) as [v1|]; [|done]. cbn [mbind result_bind].
  rewrite H2. cbn [mbind result_bind vector_for_word].
  by destruct (sn !! w2) as [v2|].
Qed.

Lemma apply_rows_keyed sn k1 k2 dt (rs : list (gmap string (cell F))) :
  Forall (keyed k1 k2) rs ->
  exists series,
    apply_rows (calc_sensorimotor_distance distance sn k1 k2 dt) rs
      = Ok series /\
    length series = length rs /\
    forall r row w1 w2,
      rs !! r = Some row ->
      row !! k1 = Some (Str w1) -> row !! k2 = Some (Str w2) ->
      series !! r = Some (predictor_cell distance sn w1 w2 dt).
Proof.
  induction rs as [|row rs IH]; intros Hk.
  - exists []. by repeat split.
  - apply Forall_cons in Hk as [(w1 & w2 & H1 & H2) Hk].
    destruct (IH Hk) as (series & Hs & Hlen & Hrows).
    exists (predictor_cell distance sn w1 w2 dt :: series).
    cbn [apply_rows].
    rewrite (calc_sensorimotor_distance_words sn k1 k2 dt row w1 w2)
      by done.
    cbn [mbind result_bind]. rewrite Hs. cbn [mbind result_bind].
    split; [done|]. split; [by rewrite !length_cons, Hlen|].
    intros [|r] row' w1' w2' Hr H1' H2'.
    + simpl in Hr. injection Hr as <-.
      rewrite H1 in H1'. rewrite H2 in H2'.
      injection H1' as <-. injection H2' as <-. done.
    + simpl in Hr. simpl. by eapply Hrows.
Qed.

End PredictorTheorems.



(** ** Sorted search *)
Section SortedSearch.
Implicit Types (a v : list string) (key : string).

Lemma ltb_irrefl key : String.ltb key key = false.
Proof.
  unfold String.ltb. destruct (String.compare key key) eqn:E; try done.
  pose proof (String.compare_antisym key key) as H.
  rewrite E in H. discriminate.
Qed.

Lemma ltb_asym x y : String.ltb x y = true -> String.ltb y x = false.
Proof.
  unfold String.ltb. rewrite (String.compare_antisym y x).
  by destruct (String.compare x y).
Qed.

Lemma strictly_sorted_NoDup a : strictly_sorted a -> NoDup a.
Proof.
  intros Hs. apply NoDup_alt. intros i j x Hi Hj.
  destruct (Nat.lt_trichotomy i j) as [Hlt|[->|Hlt]]; [|done|].
  - pose proof (Hs i j x x Hlt Hi Hj) as H.
    by rewrite ltb_irrefl in H.
  - pose proof (Hs j i x x Hlt Hj Hi) as H.
    by rewrite ltb_irrefl in H.
Qed.

(** The binary search closes in on the position of a key that is there. *)
Lemma binsearch_left_found a key p :
  strictly_sorted a -> a !! p = Some key ->
  forall fuel lo hi,
    lo <= p <= hi -> hi <= length a -> hi - lo <= fuel ->
    binsearch_left fuel a key lo hi = p.
Proof.
  intros Hs Hp.
  induction fuel as [|fuel IH]; intros lo hi Hlo Hhi Hfuel;
    cbn [binsearch_left]; [lia|].
  destruct (lo <? hi) eqn:E; [|apply Nat.ltb_ge in E; lia].
  apply Nat.ltb_lt in E.
  pose proof (Nat.div_lt (hi - lo) 2 ltac:(lia) ltac:(lia)) as Hhalf.
  destruct (lookup_lt_is_Some_2 a (lo + (hi - lo) / 2) ltac:(lia))
    as [x Hx].
  rewrite Hx. destruct (String.ltb x key) eqn:Ex.
  - apply IH; [|lia|lia]. split; [|lia].
    destruct (Nat.lt_trichotomy (lo + (hi - lo) / 2) p)
      as [Hlt|[Heq|Hgt]]; [lia| |].
    + subst p. rewrite Hx in Hp. injection Hp as ->.
      by rewrite ltb_irrefl in Ex.
    + pose proof (Hs _ _ _ _ Hgt Hp Hx) as H.
      apply ltb_asym in H. congruence.
  - apply IH; [|lia|lia]. split; [lia|].
    destruct (Nat.lt_trichotomy (lo + (hi - lo) / 2) p)
      as [Hlt|[Heq|Hgt]]; [|lia|lia].
    pose proof (Hs _ _ _ _ Hlt Hx Hp) as H. congruence.
Qed.

(** On a strictly sorted list every key that is there is answered with
    its position. *)
Lemma searchsorted_lookup a v :
  strictly_sorted a ->
  Forall (fun w => w ∈ a) v ->
  Forall2 (fun p w => a !! p = Some w) (searchsorted a v) v.
Proof.
  intros Hs Hv. induction Hv as [|w v Hw Hv IH]; [constructor|].
  apply list_elem_of_lookup in Hw as [p Hp].
  unfold searchsorted in *. cbn [map]. constructor; [|done].
  rewrite (binsearch_left_found a w p); try done; try lia.
  apply lookup_lt_Some in Hp. lia.
Qed.

Lemma searchsorted_lt a v :
  strictly_sorted a ->
  Forall (fun w => w ∈ a) v ->
  Forall (fun k => k < length a) (searchsorted a v).
Proof.
  intros Hs Hv. apply Forall_lookup. intros i p Hi.
  destruct (Forall2_lookup_l _ _ _ _ _ (searchsorted_lookup a v Hs Hv) Hi)
    as (w & _ & Hw).
  by apply lookup_lt_Some in Hw.
Qed.

(** X1: on a strictly sorted word list, [searchsorted] finds every
    selected word that is in the list at the position where it stands:
    the indices are those of [find_indices], none is an insertion point
    of an absent word. *)
Theorem searchsorted_finds_present_words a v :
  strictly_sorted a ->
  Forall (fun w => w ∈ a) v ->
  searchsorted a v = find_indices a v /\
  Forall2 (fun p w => a !! p = Some w) (searchsorted a v) v.
Proof.
  intros Hs Hv. pose proof (searchsorted_lookup a v Hs Hv) as H.
  split; [|done]. symmetry.
  by apply find_indices_fmap_lookup; [apply strictly_sorted_NoDup|].
Qed.
End SortedSearch.

Lemma abc_strictly_sorted : strictly_sorted abc.
Proof.
  intros [|[|[|i]]] [|[|[|j]]] x y Hij Hi Hj; try lia;
    cbn in Hi, Hj; try discriminate;
    injection Hi as <-; injection Hj as <-; reflexivity.
Qed.

Lemma searchsorted_finds_present_words_witness :
  searchsorted abc ["c"; "a"] = find_indices abc ["c"; "a"] /\
  Forall2 (fun p w => abc !! p = Some w) (searchsorted abc ["c"; "a"])
          ["c"; "a"].
Proof.
  apply (searchsorted_finds_present_words abc ["c"; "a"]).
  - exact abc_strictly_sorted.
  - apply find_indices_length. reflexivity.
Defined.

(** ** The loops of the script transform *)
Section ScriptLoops.
Context {F : Type} `{!Scalar F} `{!Exp F}.
Implicit Types (E cp : list (list F)) (pos : list nat).

(** A loop whose body never raises is a fold. *)
Lemma for_foldl {A S : Type} (P : S -> Prop) (Q : A -> Prop)
    (f : S -> A -> S) (body : A -> S -> result S) (xs : list A) :
  forall s,
    P s -> Forall Q xs ->
    (forall x s, Q x -> P s -> body x s = Ok (f s x) /\ P (f s x)) ->
    for_ xs s body = Ok (foldl f s xs) /\ P (foldl f s xs).
Proof.
  induction xs as [|x xs IH]; intros s Hs Hxs Hbody; [done|].
  apply Forall_cons in Hxs as [Hx Hxs]. cbn [for_ foldl].
  destruct (Hbody x s Hx Hs) as [-> Hs'].
  cbn [mbind result_bind]. by apply IH.
Qed.

Lemma triplet_loop_value n E pos i j :
  shaped n n E -> Forall (fun k => k < n) pos -> i < n -> j < n ->
  for_ pos (zeros n) (Hebart.triplet_step E i j)
  = Ok (triplet_row E n pos i j).
Proof.
  intros HE Hpos Hi Hj. unfold triplet_row.
  apply (for_foldl (fun c : list F => length c = n) (fun k => k < n));
    [by unfold zeros; rewrite length_replicate|done|].
  intros k c Hk Hc. unfold Hebart.triplet_step.
  destruct ((k =? i) || (k =? j)); [done|].
  rewrite !(getitem2_at2 n n) by done. cbn [mbind result_bind].
  unfold setitem. rewrite (proj2 (Nat.ltb_lt _ _)) by lia.
  split; [done|]. by rewrite length_insert.
Qed.

Lemma pair_step_value n E pos i j cp :
  shaped n n E -> Forall (fun k => k < n) pos -> i < n -> j < n ->
  shaped n n cp ->
  Hebart.pair_step E n pos i j cp
  = Ok (set2 cp i j (fsum (triplet_row E n pos i j))).
Proof.
  intros HE Hpos Hi Hj Hcp. unfold Hebart.pair_step.
  rewrite (triplet_loop_value n) by done. cbn [mbind result_bind].
  unfold setitem2.
  destruct (lookup_lt_is_Some_2 cp i ltac:(destruct Hcp; lia))
    as [row Hrow].
  rewrite Hrow, (shaped_row _ _ _ _ _ Hcp Hrow).
  by rewrite (proj2 (Nat.ltb_lt _ _)) by lia.
Qed.

(** The loops over [i] and [j], the list of the [j] depending on [i]. *)
Lemma outer_fold_dep n (v : nat -> nat -> F) (js : nat -> list nat) is_ :
  forall cp,
    shaped n n cp -> Forall (fun i => i < n) is_ ->
    (forall i, Forall (fun j => j < n) (js i)) ->
    let cp' := foldl (fun cp i =>
                        foldl (fun cp j =>
                                 if i =? j then cp
                                 else set2 cp i j (v i j))
                              cp (js i))
                     cp is_ in
    shaped n n cp' /\
    forall a b, a < n -> b < n ->
      at2 cp' a b = if decide (a ∈ is_ /\ b ∈ js a /\ a <> b) then v a b
                    else at2 cp a b.
Proof.
  induction is_ as [|i is_ IH]; intros cp Hcp His Hjs; cbn [foldl].
  - split; [done|]. intros a b _ _. rewrite decide_False; [done|].
    intros (H & _). by apply elem_of_nil in H.
  - apply Forall_cons in His as [Hi His].
    destruct (pair_fold_spec n (v i) i (js i) cp Hcp Hi (Hjs i))
      as [Hsh1 Hat1].
    destruct (IH _ Hsh1 His Hjs) as [Hsh Hat].
    split; [done|]. intros a b Ha Hb. rewrite Hat, Hat1 by done.
    destruct (decide (a ∈ is_ /\ b ∈ js a /\ a <> b)) as [H|H].
    + rewrite decide_True; [done|]. destruct H as (? & ? & ?).
      repeat split; try done. by right.
    + destruct (decide (a = i /\ b ∈ js i /\ a <> b))
        as [(-> & ? & ?)|H'].
      * rewrite decide_True; [done|]. repeat split; try done. by left.
      * rewrite decide_False; [done|]. intros (Hin & ? & ?).
        apply elem_of_cons in Hin as [->|Hin]; [by apply H'|by apply H].
Qed.

(** The loops of the script: [cp] holds the row sum of each pair
    [i < j], and zero on and below the diagonal. *)
Lemma pair_loops_value n E pos :
  shaped n n E -> Forall (fun k => k < n) pos ->
  exists cp,
    for_ (seq 0 n) (zeros2 n n)
       (fun i cp => for_ (seq (i + 1) (n - (i + 1))) cp
                         (Hebart.pair_step E n pos i)) = Ok cp /\
    shaped n n cp /\
    forall a b, a < n -> b < n ->
      at2 cp a b = if decide (a < b) then fsum (triplet_row E n pos a b)
                   else fzero.
Proof.
  intros HE Hpos.
  set (v := fun i j => fsum (triplet_row E n pos i j)).
  set (js := fun i => seq (i + 1) (n - (i + 1))).
  assert (forall i, Forall (fun j => j < n) (js i)) as Hjs.
  { intros i. apply Forall_forall. intros j Hj.
    apply elem_of_seq in Hj. lia. }
  assert (Forall (fun i => i < n) (seq 0 n)) as His.
  { apply Forall_forall. intros i Hi. apply elem_of_seq in Hi. lia. }
  destruct (for_foldl (shaped n n) (fun i => i < n)
              (fun cp i => foldl (fun cp j => if i =? j then cp
                                              else set2 cp i j (v i j))
                                 cp (js i))
              (fun i cp => for_ (seq (i + 1) (n - (i + 1))) cp
                                (Hebart.pair_step E n pos i))
              (seq 0 n) (zeros2 n n)) as [Hrun _].
  { apply shaped_zeros2. }
  { exact His. }
  { intros i cp Hi Hcp.
    apply (for_foldl (shaped n n) (fun j => i < j < n)); [done| |].
    - apply Forall_forall. intros j Hj. apply elem_of_seq in Hj. lia.
    - intros j cp' Hj Hcp'. rewrite (pair_step_value n) by (done || lia).
      rewrite (proj2 (Nat.eqb_neq i j)) by lia.
      split; [done|]. by apply shaped_set2. }
  destruct (outer_fold_dep n v js (seq 0 n) (zeros2 n n)
              (shaped_zeros2 n n) His Hjs) as [Hsh Hat].
  eexists. split; [exact Hrun|]. split; [exact Hsh|].
  intros a b Ha Hb. rewrite Hat by done. rewrite at2_zeros2.
  apply decide_ext. unfold js. rewrite !elem_of_seq. lia.
Qed.

(** What the script selects from, entry by entry. *)
Lemma averaged_and_mirrored_at2 n m cp i j :
  shaped n n cp -> i < n -> j < n ->
  at2 (averaged_and_mirrored m cp) i j =
    if decide (i = j) then fone
    else fadd (fdiv (at2 cp i j) (fnat m)) (fdiv (at2 cp j i) (fnat m)).
Proof.
  intros Hcp Hi Hj. unfold averaged_and_mirrored.
  assert (shaped n n (mat_map (fun x => fdiv x (fnat m)) cp)) as Hm
    by by apply shaped_mat_map.
  rewrite (at2_fill_diagonal n n);
    [|apply shaped_mat_add; [done|by apply shaped_transpose]|done|done].
  destruct (decide (i = j)); [done|].
  rewrite (at2_mat_add n n), (at2_transpose n), !(at2_mat_map n n);
    try done.
  by apply shaped_transpose.
Qed.

(** What the script's transform returns when it returns. *)
Lemma script_transform_Ok_inv (all_words select_words : list string)
    (similarity_matrix M : list (list F)) :
  Hebart.mean_softmax_prob_matrix all_words select_words
    similarity_matrix = Ok M ->
  exists cp,
    shaped (length all_words) (length all_words) cp /\
    Forall (fun k => k < length all_words)
           (searchsorted all_words select_words) /\
    M = select (averaged_and_mirrored (length select_words) cp)
               (searchsorted all_words select_words)
               (searchsorted all_words select_words).
Proof.
  rewrite mean_softmax_prob_matrix_run.
  set (n := length all_words).
  set (pos := searchsorted all_words select_words).
  pose proof (pair_loops_index_error n
                (mat_map fexp similarity_matrix) pos) as Hloops.
  destruct (for_ (seq 0 n) (zeros2 n n) _) as [cp|e]; [|done].
  cbn [index_error_or] in Hloops. cbn [mbind result_bind].
  intros Hsel. exists cp. split; [done|].
  destruct (decide (Forall (fun k => k < n) pos)) as [Hpos|Hpos].
  - split; [done|].
    rewrite (getitem_ix_Ok n) in Hsel;
      [|by apply averaged_and_mirrored_shaped|done].
    by injection Hsel.
  - rewrite (getitem_ix_Raise n) in Hsel; [done| |done].
    by destruct (averaged_and_mirrored_shaped n (length select_words)
                   cp Hloops).
Qed.

(** The script's transform fails with [IndexError] only. *)
Lemma script_transform_Raise (all_words select_words : list string)
    (similarity_matrix : list (list F)) e :
  Hebart.mean_softmax_prob_matrix all_words select_words
    similarity_matrix = Raise e ->
  e = IndexError.
Proof.
  rewrite mean_softmax_prob_matrix_run.
  pose proof (pair_loops_index_error (length all_words)
                (mat_map fexp similarity_matrix)
                (searchsorted all_words select_words)) as Hloops.
  destruct (for_ (seq 0 (length all_words)) _ _) as [cp|e'].
  - cbn [mbind result_bind]. unfold getitem_ix.
    destruct (_ && _); [done|]. by intros [= <-].
  - cbn [index_error_or] in Hloops. cbn [mbind result_bind].
    by intros [= <-].
Qed.

(** A matrix the script's transform returns has 1 on its diagonal. *)
Lemma script_transform_diagonal (all_words select_words : list string)
    (similarity_matrix M : list (list F)) a :
  Hebart.mean_softmax_prob_matrix all_words select_words
    similarity_matrix = Ok M ->
  a < length select_words ->
  at2 M a a = fone.
Proof.
  intros HM Ha.
  apply script_transform_Ok_inv in HM as (cp & Hcp & Hpos & ->).
  destruct (lookup_lt_is_Some_2 (searchsorted all_words select_words) a)
    as [i Hi]; [by rewrite searchsorted_length|].
  rewrite (at2_select _ _ _ a a i i) by done.
  rewrite Forall_lookup in Hpos.
  rewrite (averaged_and_mirrored_at2 (length all_words));
    [by rewrite decide_True|done|by eapply Hpos..].
Qed.

End ScriptLoops.


(** ** The script transform and the module transform *)
Section ScriptAndModule.
Implicit Types (E : list (list R)) (idxs : list nat).

(** On a symmetric array the triplet sums of [(i, j)] and of [(j, i)]
    are the same. *)
Lemma triplet_row_symmetric n E idxs i j :
  symmetric n E -> i < n -> j < n ->
  triplet_row E n idxs i j = triplet_row E n idxs j i.
Proof.
  intros HE Hi Hj. rewrite !triplet_row_map.
  apply list_fmap_ext. intros a k Hk.
  apply lookup_seq in Hk as [-> Hk]. simpl.
  destruct (decide (_ ∈ idxs /\ _ <> i /\ _ <> j)) as [H|H].
  - rewrite decide_True by tauto. unfold softmax_term.
    rewrite (HE j i), (HE j _) by done.
    change (@fdiv R _) with Rdiv. change (@fadd R _) with Rplus.
    f_equal. lra.
  - rewrite decide_False by tauto. done.
Qed.

Lemma symmetric_mat_map n (f : R -> R) (M : list (list R)) :
  shaped n n M -> symmetric n M -> symmetric n (mat_map f M).
Proof.
  intros HM Hs i j Hi Hj. rewrite !(at2_mat_map n n) by done.
  by rewrite Hs.
Qed.

End ScriptAndModule.

Lemma flat3_symmetric : symmetric 3 (matrix flat3).
Proof.
  intros [|[|[|i]]] [|[|[|j]]] Hi Hj; try lia; reflexivity.
Qed.


(** ** Narrowing to a subset of the labels *)
Section Narrowing.
Context {F : Type} `{!Scalar F}.
Implicit Types (M : LabelledSymmetricMatrix F) (l sub : list string).

(** With every requested label present, the index of a request is the
    first position of its label. *)
Lemma find_indices_index_of l sub a w :
  Forall (fun w => w ∈ l) sub -> sub !! a = Some w ->
  find_indices l sub !! a = index_of w l.
Proof.
  intros Hsub. revert a.
  induction Hsub as [|x sub Hx Hsub IH]; intros a Ha; [done|].
  rewrite find_indices_cons.
  destruct (index_of x l) as [i|] eqn:E;
    [|by apply index_of_None in E].
  destruct a as [|a]; simpl in *; [congruence|by apply IH].
Qed.

Lemma index_of_is_Some w l : w ∈ l -> is_Some (index_of w l).
Proof.
  intros Hw. destruct (index_of w l) eqn:E; [done|].
  by apply index_of_None in E.
Qed.

(** [for_subset] with every requested label present *)
Lemma for_subset_run M sub :
  constructed M -> Forall (fun w => w ∈ labels M) sub ->
  for_subset M sub =
    Ok (Build_LSM
          (select (matrix M) (find_indices (labels M) sub)
                  (find_indices (labels M) sub))
          sub).
Proof.
  intros HM Hsub. apply constructed_shaped in HM. unfold for_subset.
  cbv zeta. pose proof (proj2 (find_indices_length _ _) Hsub) as Hlen.
  rewrite (proj2 (Nat.eqb_eq _ _) Hlen). cbn [assert mbind result_bind].
  rewrite (getitem_ix_Ok _ _ _ HM (find_indices_lt _ _)).
  cbn [mbind result_bind]. apply init_Ok.
  rewrite <- Hlen. apply shaped_select.
Qed.

(** [for_subset] with a requested label that is absent *)
Lemma for_subset_absent M sub :
  ~ Forall (fun w => w ∈ labels M) sub ->
  for_subset M sub = Raise AssertionError.
Proof.
  intros Hsub. unfold for_subset. cbv zeta.
  destruct (length (find_indices (labels M) sub) =? length sub) eqn:E;
    [|done].
  apply Nat.eqb_eq, find_indices_length in E. done.
Qed.

Lemma select_mat_map n (f : F -> F) (A : list (list F)) idxs :
  shaped n n A -> Forall (fun i => i < n) idxs ->
  select (mat_map f A) idxs idxs = mat_map f (select A idxs idxs).
Proof.
  intros HA Hidx. unfold select, mat_map at 2.
  rewrite <- !list_fmap_compose. rewrite Forall_lookup in Hidx.
  apply list_fmap_ext. intros a i Hi. simpl.
  rewrite <- list_fmap_compose.
  apply list_fmap_ext. intros b j Hj. simpl.
  apply (at2_mat_map n n); [done|by eapply Hidx|by eapply Hidx].
Qed.

(** X4: narrowing to labels that are all present returns a matrix that
    carries the requested labels in the requested order and passes the
    constructor's shape check; its entry [(a, b)] is the source entry at
    the positions of the labels requested at [a] and at [b]. *)
Theorem for_subset_selects_labelled_entries M sub :
  constructed M -> NoDup (labels M) ->
  Forall (fun w => w ∈ labels M) sub ->
  exists M',
    for_subset M sub = Ok M' /\
    labels M' = sub /\
    constructed M' /\
    forall a b wa wb i j,
      sub !! a = Some wa -> sub !! b = Some wb ->
      labels M !! i = Some wa -> labels M !! j = Some wb ->
      at2 (matrix M') a b = at2 (matrix M) i j.
Proof.
  intros HM Hnd Hsub. rewrite for_subset_run by done.
  eexists. split; [reflexivity|]. split; [done|]. split.
  - apply constructed_shaped. cbn [labels matrix].
    rewrite <- (proj2 (find_indices_length _ _) Hsub).
    apply shaped_select.
  - intros a b wa wb i j Ha Hb Hi Hj. cbn [matrix].
    apply at2_select.
    + rewrite (find_indices_index_of _ _ _ _ Hsub Ha).
      by apply index_of_lookup_NoDup.
    + rewrite (find_indices_index_of _ _ _ _ Hsub Hb).
      by apply index_of_lookup_NoDup.
Qed.

(** X5: on a constructed matrix [for_subset] fails with its
    [AssertionError] exactly when some requested label is not a label of
    the matrix; it fails in no other way. *)
Theorem for_subset_fails_exactly_on_absent_label M sub :
  constructed M ->
  (for_subset M sub = Raise AssertionError <->
     exists w, w ∈ sub /\ w ∉ labels M) /\
  (forall e, for_subset M sub = Raise e -> e = AssertionError).
Proof.
  intros HM.
  destruct (decide (Forall (fun w => w ∈ labels M) sub)) as [Hsub|Hsub].
  - rewrite for_subset_run by done. split; [split|]; try done.
    intros (w & Hw & Hn). rewrite Forall_forall in Hsub.
    by destruct Hn; apply Hsub.
  - rewrite for_subset_absent by done. split; [|by intros e [= <-]].
    split; [intros _|done].
    apply not_Forall_Exists in Hsub; [|intros w; apply _].
    apply Exists_exists in Hsub as (w & Hw & Hn). by exists w.
Qed.

(** X6: narrowing a constructed matrix with distinct labels to its own
    label list returns the matrix unchanged. *)
Theorem for_subset_all_labels M :
  constructed M -> NoDup (labels M) ->
  for_subset M (labels M) = Ok M.
Proof.
  intros HM Hnd. rewrite for_subset_run; [|done|].
  - rewrite find_indices_self by done.
    rewrite (select_seq (length (labels M)))
      by by apply constructed_shaped.
    by destruct M.
  - apply Forall_forall. auto.
Qed.

(** X7: narrowing in two steps is narrowing in one: after a narrowing to
    [first], a narrowing to words of [first] gives what the narrowing of
    the source to those words gives. *)
Theorem for_subset_twice M first second :
  constructed M ->
  Forall (fun w => w ∈ labels M) first ->
  Forall (fun w => w ∈ first) second ->
  exists M1,
    for_subset M first = Ok M1 /\
    for_subset M1 second = for_subset M second.
Proof.
  intros HM H1 H2.
  assert (Forall (fun w => w ∈ labels M) second) as H12.
  { rewrite Forall_forall in H1, H2 |- *. auto. }
  rewrite (for_subset_run M first) by done.
  eexists. split; [reflexivity|].
  rewrite (for_subset_run M second) by done.
  rewrite for_subset_run; cbn [labels matrix]; [|..|done].
  2:{ apply constructed_shaped. cbn [labels matrix].
      rewrite <- (proj2 (find_indices_length _ _) H1).
      apply shaped_select. }
  f_equal. f_equal.
  set (r := find_indices (labels M) first).
  set (q := find_indices first second).
  set (t := find_indices (labels M) second).
  assert (length q = length second) as Hq
    by by apply find_indices_length.
  assert (length t = length second) as Ht
    by by apply find_indices_length.
  apply (shaped_ext (length second) (length second)).
  { rewrite <- Hq. apply shaped_select. }
  { rewrite <- Ht. apply shaped_select. }
  assert (forall a, a < length second ->
            exists p i, q !! a = Some p /\ r !! p = Some i /\
                        t !! a = Some i) as Hpos.
  { intros a Ha.
    destruct (lookup_lt_is_Some_2 second a Ha) as [w Hw].
    assert (w ∈ first) as Hw1
      by (rewrite Forall_lookup in H2; by eapply H2).
    destruct (index_of_is_Some w first Hw1) as [p Hp].
    assert (w ∈ labels M) as Hw2
      by (rewrite Forall_lookup in H12; by eapply H12).
    destruct (index_of_is_Some w (labels M) Hw2) as [i Hi].
    exists p, i. unfold q, r, t.
    rewrite (find_indices_index_of _ _ _ _ H2 Hw).
    rewrite (find_indices_index_of _ _ _ _ H12 Hw).
    rewrite (find_indices_index_of _ _ p w H1 (index_of_Some _ _ _ Hp)).
    done. }
  intros a b Ha Hb.
  destruct (Hpos a Ha) as (p & i & Hqa & Hrp & Hta).
  destruct (Hpos b Hb) as (p' & j & Hqb & Hrp' & Htb).
  rewrite (at2_select _ q q a b p p') by done.
  rewrite (at2_select _ r r p p' i j) by done.
  by rewrite (at2_select _ t t a b i j).
Qed.

(** X8: narrowing commutes with the conversion to dissimilarities:
    [RDM.from_similarity_matrix(S).for_subset(words)] and
    [RDM.from_similarity_matrix(S.for_subset(words))] agree, in their
    result and in their failure. *)
Theorem from_similarity_matrix_for_subset
    (S : SimilarityMatrix F) (subset_words : list string) :
  constructed S ->
  (r ← from_similarity_matrix S; RDM_for_subset r subset_words) =
  (s ← SimilarityMatrix_for_subset S subset_words;
   from_similarity_matrix s).
Proof.
  intros HS. pose proof HS as Hsh. apply constructed_shaped in Hsh.
  unfold from_similarity_matrix at 1, RDM_init.
  rewrite init_Ok by by apply shaped_mat_map.
  cbn [fmap result_fmap mbind result_bind].
  unfold RDM_for_subset, SimilarityMatrix_for_subset. cbn [rdm_base].
  destruct (decide (Forall (fun w => w ∈ labels S) subset_words))
    as [Hsub|Hsub].
  - rewrite !for_subset_run; try done.
    2:{ apply constructed_shaped. cbn [labels matrix].
        by apply shaped_mat_map. }
    cbn [mbind result_bind labels matrix].
    assert (shaped (length subset_words) (length subset_words)
              (select (matrix S) (find_indices (labels S) subset_words)
                 (find_indices (labels S) subset_words))) as Hsel.
    { rewrite <- (proj2 (find_indices_length _ _) Hsub).
      apply shaped_select. }
    rewrite (select_mat_map (length (labels S)))
      by (done || apply find_indices_lt).
    unfold SimilarityMatrix_init, RDM_init.
    rewrite !init_Ok by (done || by apply shaped_mat_map).
    cbn [fmap result_fmap mbind result_bind].
    unfold from_similarity_matrix, RDM_init. cbn [sm_base labels matrix].
    by rewrite init_Ok by by apply shaped_mat_map.
  - rewrite !for_subset_absent; done.
Qed.
End Narrowing.

Lemma for_subset_selects_labelled_entries_witness :
  exists M',
    for_subset (Build_LSM d3 abc) ["c"; "a"] = Ok M' /\
    labels M' = ["c"; "a"] /\
    constructed M' /\
    forall a b wa wb i j,
      ["c"; "a"] !! a = Some wa -> ["c"; "a"] !! b = Some wb ->
      abc !! i = Some wa -> abc !! j = Some wb ->
      at2 (matrix M') a b = at2 d3 i j.
Proof.
  refine (for_subset_selects_labelled_entries (Build_LSM d3 abc)
            ["c"; "a"] _ _ _).
  - reflexivity.
  - exact abc_NoDup.
  - apply find_indices_length. reflexivity.
Defined.

Lemma for_subset_fails_exactly_on_absent_label_witness :
  (for_subset (Build_LSM d3 abc) ["c"; "z"] = Raise AssertionError <->
     exists w, w ∈ ["c"; "z"] /\ w ∉ abc) /\
  (forall e, for_subset (Build_LSM d3 abc) ["c"; "z"] = Raise e ->
             e = AssertionError).
Proof.
  refine (for_subset_fails_exactly_on_absent_label (Build_LSM d3 abc)
            ["c"; "z"] _).
  reflexivity.
Defined.

Lemma for_subset_all_labels_witness :
  for_subset (Build_LSM d3 abc) abc = Ok (Build_LSM d3 abc).
Proof.
  refine (for_subset_all_labels (Build_LSM d3 abc) _ _).
  - reflexivity.
  - exact abc_NoDup.
Defined.

Lemma for_subset_twice_witness :
  exists M1,
    for_subset (Build_LSM d3 abc) ["c"; "a"] = Ok M1 /\
    for_subset M1 ["a"] = for_subset (Build_LSM d3 abc) ["a"].
Proof.
  refine (for_subset_twice (Build_LSM d3 abc) ["c"; "a"] ["a"] _ _ _).
  - reflexivity.
  - apply find_indices_length. reflexivity.
  - apply find_indices_length. reflexivity.
Defined.

Lemma from_similarity_matrix_for_subset_witness :
  (r ← from_similarity_matrix half2; RDM_for_subset r ["b"]) =
  (s ← SimilarityMatrix_for_subset half2 ["b"]; from_similarity_matrix s).
Proof.
  refine (from_similarity_matrix_for_subset half2 ["b"] _).
  reflexivity.
Defined.

(** ** Correlating transformed matrices *)
Section CorrelatingTransforms.
Context {F : Type} `{!Scalar F} `{!Exp F}.

Lemma squareform_nonzero_diagonal (X : list (list F)) i :
  i < length X -> feqb (at2 X i i) fzero = false ->
  squareform X = Raise ValueError.
Proof.
  intros Hi Hd. unfold squareform. cbv zeta.
  destruct (has_shape (length X) (length X) X); [|done]. cbn [negb].
  destruct (is_valid_dm X) eqn:E; [|done].
  apply is_valid_dm_spec in E as [_ E]. rewrite (E i Hi) in Hd.
  discriminate.
Qed.

(** X9: a matrix returned by the transform cannot be correlated as it
    is: its diagonal is 1, which [squareform] refuses, so
    [correlate_with] on it raises [ValueError] (the conversion
    [RDM.from_similarity_matrix] has to come first). *)
Theorem correlate_with_rejects_transform_output
    (S : SimilarityMatrix F) (subset_labels : list string) :
  feqb (fone : F) fzero = false ->
  constructed S ->
  subset_labels <> [] ->
  Forall (fun w => w ∈ labels S) subset_labels ->
  exists T,
    mean_softmax_probability_matrix S (Some subset_labels) = Ok T /\
    forall other : LabelledSymmetricMatrix F,
      length (labels other) = length subset_labels ->
      correlate_with T other = Raise ValueError.
Proof.
  intros H10 HS Hne Hsub. rewrite transform_returns by done.
  eexists. split; [reflexivity|]. intros other Hlen.
  unfold correlate_with. cbn [labels matrix sm_base].
  rewrite Hlen, Nat.eqb_refl. cbn [assert mbind result_bind].
  pose proof (proj2 (find_indices_length _ _) Hsub) as Hidx.
  destruct subset_labels as [|w sub]; [done|].
  destruct (lookup_lt_is_Some_2
              (find_indices (labels S) (w :: sub)) 0
              ltac:(rewrite Hidx; simpl; lia)) as [i Hi].
  rewrite (squareform_nonzero_diagonal
             (select (transform_array S (w :: sub))
                (find_indices (labels S) (w :: sub))
                (find_indices (labels S) (w :: sub))) 0); [done| |].
  - unfold select. rewrite length_map, Hidx. simpl. lia.
  - rewrite (transform_entry S (w :: sub) 0 0 i i) by done.
    by rewrite decide_True.
Qed.
End CorrelatingTransforms.

Section ExactCorrelation.
Implicit Types (x y : list R) (A B : LabelledSymmetricMatrix R).

Lemma R_feqb_eq (a b : R) : a = b -> feqb a b = true.
Proof. intros ->. apply R_feqb_refl. Qed.

(** The dissimilarities of a transformed matrix are what [squareform]
    accepts. *)
Lemma transform_rdm_valid (S : SimilarityMatrix R) subset :
  constructed S -> Forall (fun w => w ∈ labels S) subset ->
  valid_dm (length subset)
    (mat_map (fsub fone)
       (select (transform_array S subset)
               (find_indices (labels S) subset)
               (find_indices (labels S) subset))).
Proof.
  intros HS Hsub.
  pose proof (proj2 (find_indices_length _ _) Hsub) as Hidx.
  set (idxs := find_indices (labels S) subset) in *.
  assert (shaped (length subset) (length subset)
            (select (transform_array S subset) idxs idxs)) as Hsel.
  { rewrite <- Hidx. apply shaped_select. }
  split; [by apply shaped_mat_map|].
  apply is_valid_dm_spec.
  assert (length (mat_map (fsub fone)
                    (select (transform_array S subset) idxs idxs))
          = length subset) as ->.
  { unfold mat_map, select. by rewrite !length_map. }
  split.
  - intros a b Ha Hb. apply R_feqb_eq.
    rewrite !(at2_mat_map _ _ _ _ _ _ Hsel) by done. f_equal.
    destruct (lookup_lt_is_Some_2 idxs a ltac:(lia)) as [i Hi].
    destruct (lookup_lt_is_Some_2 idxs b ltac:(lia)) as [j Hj].
    rewrite (transform_entry S subset a b i j),
            (transform_entry S subset b a j i) by done.
    destruct (decide (i = j)) as [->|Hij]; [by rewrite decide_True|].
    rewrite decide_False by congruence. cbv zeta.
    change (@fadd R _) with Rplus. by rewrite Rplus_comm.
  - intros a Ha. apply R_feqb_eq.
    rewrite (at2_mat_map _ _ _ _ _ _ Hsel) by done.
    destruct (lookup_lt_is_Some_2 idxs a ltac:(lia)) as [i Hi].
    rewrite (transform_entry S subset a a i i) by done.
    rewrite decide_True by done. cbn. lra.
Qed.


Lemma dot_comm x y : dot x y = dot y x.
Proof.
  unfold dot. f_equal. revert y.
  induction x as [|a x IH]; intros [|b y]; try done.
  cbn [zip_with]. rewrite IH. f_equal.
  change (@fmul R _) with Rmult. apply Rmult_comm.
Qed.

Lemma clip_ext (a b lo hi : R) : a = b -> clip a lo hi = clip b lo hi.
Proof. by intros ->. Qed.

Lemma pearson_comm x y : length x = length y -> pearson x y = pearson y x.
Proof.
  intros Hlen. unfold pearson. cbv zeta. rewrite Hlen.
  apply clip_ext. rewrite (dot_comm (map _ y) (map _ x)).
  change (@fdiv R _) with Rdiv. unfold Rdiv. ring.
Qed.

End ExactCorrelation.

Lemma correlate_with_rejects_transform_output_witness :
  exists T,
    mean_softmax_probability_matrix flat3 (Some ["a"; "b"]) = Ok T /\
    forall other : LabelledSymmetricMatrix R,
      length (labels other) = 2 ->
      correlate_with T other = Raise ValueError.
Proof.
  refine (correlate_with_rejects_transform_output flat3 ["a"; "b"]
            _ _ _ _).
  - cbn. destruct (Req_dec_T 1 0) as [H|H]; [lra|reflexivity].
  - exact flat3_constructed.
  - discriminate.
  - exact ab_in_flat3.
Defined.


(** ** Correlations and p-values *)
Section SelfCorrelation.
Implicit Types (x : list R).

Lemma foldl_Rplus x : forall acc,
  foldl Rplus acc x = (acc + foldl Rplus 0 x)%R.
Proof.
  induction x as [|a x IH]; intros acc; cbn [foldl]; [lra|].
  rewrite (IH (acc + a)%R), (IH (0 + a)%R). lra.
Qed.

Lemma fsum_cons (a : R) x : fsum (a :: x) = (a + fsum x)%R.
Proof.
  unfold fsum. change (@fadd R _) with Rplus. change (@fzero R _) with 0%R.
  cbn [foldl]. rewrite foldl_Rplus. lra.
Qed.

(** A sum of squares is positive as soon as one term is not zero. *)
Lemma dot_self_nonneg x : (0 <= dot x x)%R.
Proof.
  unfold dot. induction x as [|a x IH]; [cbn; lra|].
  cbn [zip_with]. rewrite fsum_cons.
  set (s := fsum (zip_with fmul x x)) in *.
  change (fmul a a) with (a * a)%R. nra.
Qed.

Lemma dot_self_pos x : Exists (fun a => a <> 0%R) x -> (0 < dot x x)%R.
Proof.
  intros Hx. induction Hx as [a x Ha|a x Hx IH].
  - pose proof (dot_self_nonneg x) as H. unfold dot in *.
    cbn [zip_with]. rewrite fsum_cons.
    set (s := fsum (zip_with fmul x x)) in *.
    change (fmul a a) with (a * a)%R. nra.
  - unfold dot in *. cbn [zip_with]. rewrite fsum_cons.
    set (s := fsum (zip_with fmul x x)) in *.
    change (fmul a a) with (a * a)%R. nra.
Qed.

Lemma pearson_self x a b :
  a ∈ x -> b ∈ x -> a <> b -> pearson x x = 1%R.
Proof.
  intros Ha Hb Hab. unfold pearson. cbv zeta.
  set (xc := map (fun a => fsub a (mean x)) x).
  assert (0 < dot xc xc)%R as Hpos.
  { apply dot_self_pos. unfold xc. apply Exists_fmap.
    destruct (Req_dec_T a (mean x)) as [Ea|Ea].
    - apply Exists_exists. exists b. split; [done|].
      change (@fsub R _) with Rminus. intros H0. apply Hab. lra.
    - apply Exists_exists. exists a. split; [done|].
      change (@fsub R _) with Rminus. intros H0. apply Ea. lra. }
  assert (2 <= length x) as Hlen.
  { apply list_elem_of_lookup in Ha as [i Hi].
    apply list_elem_of_lookup in Hb as [j Hj].
    assert (i <> j) by congruence.
    apply lookup_lt_Some in Hi, Hj. lia. }
  assert (0 < INR (length x - 1))%R as Hn.
  { apply lt_0_INR. lia. }
  change (@fdiv R _) with Rdiv. change (@fmul R _) with Rmult.
  change (@fone R _) with 1%R. change (@fnat R _) with INR.
  change (@fopp R _) with Ropp. change (@fsqrt R _) with R_sqrt.sqrt.
  set (c := (dot xc xc * (1 / INR (length x - 1)))%R).
  assert (0 < c)%R as Hc.
  { unfold c. apply Rmult_lt_0_compat; [done|].
    apply Rdiv_lt_0_compat; lra. }
  pose proof (sqrt_lt_R0 c Hc) as Hs.
  pose proof (sqrt_sqrt c ltac:(lra)) as Hss.
  assert (c / R_sqrt.sqrt c / R_sqrt.sqrt c = 1)%R as ->.
  { rewrite <- Hss at 1. field. lra. }
  unfold clip. cbn.
  destruct (Rlt_dec 1 (- (1))) as [H|_]; [exfalso; lra|].
  by destruct (Rlt_dec 1 1) as [H|_].
Qed.

End SelfCorrelation.

Section PValues.
Context {G : Type} `{!RandomState G}.

Lemma count_nonzero_none {F : Type} (cond : F -> bool) (v : list F) :
  Forall (fun x => cond x = false) v -> count_nonzero cond v = 0.
Proof.
  induction 1 as [|x v Hx _ IH]; [done|].
  by rewrite count_nonzero_cons, Hx, IH.
Qed.

Lemma count_nonzero_all {F : Type} (cond : F -> bool) (v : list F) :
  Forall (fun x => cond x = true) v -> count_nonzero cond v = length v.
Proof.
  induction 1 as [|x v Hx _ IH]; [done|].
  by rewrite count_nonzero_cons, Hx, IH.
Qed.

Lemma Rdiv_unit (x d : R) :
  (0 <= x <= d)%R -> (0 < d)%R -> (0 <= x / d <= 1)%R.
Proof.
  intros [H0 H1] Hd.
  pose proof (Rinv_0_lt_compat d Hd) as Hi.
  split; [apply Rmult_le_pos; lra|].
  replace 1%R with (d * / d)%R by (field; lra).
  apply Rmult_le_compat_r; lra.
Qed.

Lemma p_value_bounds (s : R) (l : list R) :
  0 < length l ->
  let p := fsub fone (fdiv (percentileofscore l s) (fnat 100)) in
  (0 <= p <= 1)%R /\
  (Forall (fun x => (x < s)%R) l -> p = 0%R) /\
  (Forall (fun x => (s < x)%R) l -> p = 1%R).
Proof.
  intros Hn p. destruct (p_value_counts s l Hn) as [Hin Hout].
  fold p in Hin, Hout.
  pose proof (count_nonzero_le (fun x => fltb s x) l) as Ha.
  pose proof (count_nonzero_le (fun x => fleb s x) l) as Hg.
  apply le_INR in Ha, Hg.
  pose proof (pos_INR (count_nonzero (fun x => fltb s x) l)) as Ha0.
  pose proof (pos_INR (count_nonzero (fun x => fleb s x) l)) as Hg0.
  assert (0 < INR (length l))%R as Hl by by apply lt_0_INR.
  split; [|split].
  - assert (s ∈ l \/ s ∉ l) as [Hs|Hs].
    { destruct (In_dec Req_dec_T s l) as [Hs|Hs];
        [left|right]; by rewrite list_elem_of_In. }
    + rewrite (Hin Hs).
      assert (1 <= INR (count_nonzero (fun x => fleb s x) l))%R as H1.
      { change 1%R with (INR 1). apply le_INR.
        apply list_elem_of_lookup in Hs as [i Hi].
        unfold count_nonzero.
        assert (s ∈ filter (fun x => fleb s x = true) l) as Hf.
        { apply list_elem_of_filter. split; [|by eapply list_elem_of_lookup_2].
          apply R_fleb_spec. lra. }
        destruct (filter _ l); [by apply elem_of_nil in Hf|simpl; lia]. }
      apply Rdiv_unit; lra.
    + rewrite (Hout Hs). apply Rdiv_unit; lra.
  - intros Hall.
    assert (s ∉ l) as Hs.
    { intros Hs. rewrite Forall_forall in Hall.
      specialize (Hall s Hs). lra. }
    rewrite (Hout Hs), count_nonzero_none; [cbn; lra|].
    eapply Forall_impl; [exact Hall|]. intros x Hx. cbn beta.
    destruct (fleb s x) eqn:E; [|done].
    apply R_fleb_spec in E. lra.
  - intros Hall.
    assert (s ∉ l) as Hs.
    { intros Hs. rewrite Forall_forall in Hall.
      specialize (Hall s Hs). lra. }
    rewrite (Hout Hs), count_nonzero_all; [field; lra|].
    eapply Forall_impl; [exact Hall|]. intros x Hx. cbn beta.
    apply R_fleb_spec. lra.
Qed.

End PValues.

Section SignificanceTest.
Context {F : Type} `{!Scalar F} {G : Type} `{!RandomState G}.

(** X13: [correlate_with_nhst] on matrices [squareform] accepts
    returns the correlation of [correlate_with] and the p-value of
    [randomisation_p] at that correlation, taken over [n_perms]
    permutations drawn in a row from the generator; with label lists of
    different lengths it raises the [AssertionError] of
    [correlate_with]. *)
Theorem correlate_with_nhst_returns n (self : RDM F)
    (other : LabelledSymmetricMatrix F) n_perms (g : G) :
  (length (labels self) <> length (labels other) ->
   correlate_with_nhst self other n_perms g = Raise AssertionError) /\
  (length (labels self) = length (labels other) ->
   valid_dm n (matrix self) -> valid_dm n (matrix other) ->
   let r := pearson (upper_triangle (matrix self))
                    (upper_triangle (matrix other)) in
   let null := map (permuted_correlation (matrix self) (matrix other))
                   (draws n n_perms g).1 in
   correlate_with self other = Ok r /\
   correlate_with_nhst self other n_perms g =
     Ok ((r, fsub fone (fdiv (percentileofscore null r) (fnat 100))),
         (draws n n_perms g).2)).
Proof.
  unfold correlate_with_nhst, correlate_with. split.
  - intros Hne. apply Nat.eqb_neq in Hne. by rewrite Hne.
  - intros Heq H1 H2. cbv zeta. rewrite Heq, Nat.eqb_refl.
    cbn [assert mbind result_bind].
    rewrite !(squareform_valid n) by done. cbn [mbind result_bind].
    unfold corrcoef01.
    rewrite (upper_triangle_length (matrix self) (matrix other));
      [|destruct H1 as [[-> _] _]; by destruct H2 as [[-> _] _]].
    rewrite Nat.eqb_refl. cbn [negb mbind result_bind].
    split; [done|].
    by rewrite (randomisation_p_Ok n).
Qed.
End SignificanceTest.

Section FortyEight.
Context {F : Type} `{!Scalar F} {G : Type} `{!RandomState G}.
Implicit Types (X : list (list F)).

(** Twice the number of entries above the diagonal. *)
Lemma upper_triangle_count X :
  2 * length (upper_triangle X) = length X * (length X - 1).
Proof.
  unfold upper_triangle. cbv zeta. set (d := length X).
  assert (forall k, k <= d ->
            2 * length (flat_map
                          (fun i => map (fun j => at2 X i j)
                                        (seq (i + 1) (d - (i + 1))))
                          (seq (d - k) k))
            = k * (k - 1)) as Hk.
  { induction k as [|k IH]; intros Hle; [done|].
    replace (seq (d - S k) (S k)) with ((d - S k) :: seq (d - k) k)
      by (cbn [seq]; do 2 f_equal; lia).
    cbn [flat_map]. rewrite length_app, length_map, length_seq.
    specialize (IH ltac:(lia)). nia. }
  specialize (Hk d ltac:(lia)). by rewrite Nat.sub_diag in Hk.
Qed.

(** Selecting rows and columns by one index list keeps a matrix
    acceptable. *)
Lemma valid_dm_select_lt n X idxs :
  valid_dm n X -> Forall (fun i => i < n) idxs ->
  valid_dm (length idxs) (select X idxs idxs).
Proof.
  intros [Hsh Hv] Hlt.
  assert (length X = n) as HX by by destruct Hsh.
  split; [apply shaped_select|].
  apply is_valid_dm_spec in Hv as [H1 H2]. rewrite HX in H1, H2.
  rewrite Forall_lookup in Hlt.
  assert (length (select X idxs idxs) = length idxs) as Hs.
  { unfold select. by rewrite length_map. }
  apply is_valid_dm_spec. rewrite Hs. split.
  - intros a b Ha Hb.
    destruct (lookup_lt_is_Some_2 idxs a ltac:(lia)) as [i Hi].
    destruct (lookup_lt_is_Some_2 idxs b ltac:(lia)) as [j Hj].
    rewrite (at2_select X idxs idxs a b i j),
            (at2_select X idxs idxs b a j i) by done.
    apply H1; by eapply Hlt.
  - intros a Ha.
    destruct (lookup_lt_is_Some_2 idxs a ltac:(lia)) as [i Hi].
    rewrite (at2_select X idxs idxs a a i i) by done.
    apply H2. by eapply Hlt.
Qed.

(** X15: the script's [randomisation_p] draws [permutation(48)]
    whatever the size of its matrices: on matrices of fewer than 48
    conditions the first permutation indexes out of range
    ([IndexError]); on more than 48 it selects 48 of the conditions, and
    the two vectors to correlate have different lengths
    ([ValueError]). *)
Theorem script_randomisation_p_needs_48 n (rdm_1 rdm_2 : list (list F))
    (observed_r : F) n_perms (g : G) :
  valid_dm n rdm_1 -> valid_dm n rdm_2 -> 0 < n_perms ->
  (n < 48 ->
   Hebart.randomisation_p rdm_1 rdm_2 observed_r n_perms g
     = Raise IndexError) /\
  (48 < n ->
   Hebart.randomisation_p rdm_1 rdm_2 observed_r n_perms g
     = Raise ValueError).
Proof.
  intros H1 H2 Hn. unfold Hebart.randomisation_p.
  rewrite (squareform_valid n) by done. cbn [mbind result_bind].
  destruct n_perms as [|k]; [lia|]. cbn [seq for_].
  assert (forall c1 (r : list F),
            Hebart.permutation_step c1 rdm_2 0 (r, g) =
            (permuted ← getitem_ix rdm_2 (permutation 48 g).1
                                   (permutation 48 g).1;
             c2 ← squareform permuted;
             r' ← corrcoef01 c1 c2;
             Ok (<[0 := r']> r, (permutation 48 g).2))) as Hstep.
  { intros c1 r. unfold Hebart.permutation_step. cbn [fst snd].
    by destruct (permutation 48 g). }
  rewrite Hstep. clear Hstep.
  pose proof (permutation_Permutation 48 g) as Hp.
  destruct (permutation 48 g) as [perm g1]. cbn [fst snd] in Hp |- *.
  pose proof (Permutation_seq_length 48 perm Hp) as Hlen.
  pose proof (Permutation_seq_lt 48 perm Hp) as Hlt.
  split; intros Hsize.
  - rewrite (getitem_ix_Raise n); [done|by destruct H2 as [[? _] _]|].
    intros Hall. rewrite Forall_forall in Hall.
    assert (47 ∈ perm) as H47.
    { rewrite Hp. apply elem_of_seq. lia. }
    specialize (Hall 47 H47). lia.
  - assert (Forall (fun i => i < n) perm) as Hltn.
    { eapply Forall_impl; [exact Hlt|]. intros i Hi. cbn beta in *. lia. }
    rewrite (getitem_ix_Ok n); [|by destruct H2|done].
    cbn [mbind result_bind].
    pose proof (valid_dm_select_lt n rdm_2 perm H2 Hltn) as Hv.
    rewrite (squareform_valid (length perm)) by done.
    cbn [mbind result_bind]. unfold corrcoef01.
    pose proof (upper_triangle_count rdm_1) as C1.
    pose proof (upper_triangle_count (select rdm_2 perm perm)) as C2.
    assert (length rdm_1 = n) as L1 by by destruct H1 as [[? _] _].
    assert (length (select rdm_2 perm perm) = 48) as L2
      by (unfold select; by rewrite length_map).
    rewrite L1 in C1. rewrite L2 in C2.
    assert ((length (upper_triangle rdm_1)
             =? length (upper_triangle (select rdm_2 perm perm))) = false)
      as ->; [|done].
    apply Nat.eqb_neq. nia.
Qed.
End FortyEight.



Lemma correlate_with_nhst_returns_witness :
  correlate_with (Build_LSM d3 abc) (Build_LSM d3 abc)
    = Ok (pearson (upper_triangle d3) (upper_triangle d3)) /\
  correlate_with_nhst (as_RDM (Build_LSM d3 abc)) (Build_LSM d3 abc) 2
    [0; 1; 1; 0]
  = Ok ((pearson (upper_triangle d3) (upper_triangle d3),
         fsub fone
           (fdiv (percentileofscore
                    (map (permuted_correlation d3 d3)
                         (draws 3 2 [0; 1; 1; 0]).1)
                    (pearson (upper_triangle d3) (upper_triangle d3)))
                 (fnat 100))),
        (draws 3 2 [0; 1; 1; 0]).2).
Proof.
  refine (proj2 (correlate_with_nhst_returns 3 (as_RDM (Build_LSM d3 abc))
                   (Build_LSM d3 abc) 2 [0; 1; 1; 0]) _ _ _).
  - reflexivity.
  - exact d3_valid.
  - exact d3_valid.
Defined.

Lemma script_randomisation_p_needs_48_witness :
  Hebart.randomisation_p d3 d3 1%float 1 ([] : list nat)
    = Raise IndexError.
Proof.
  refine (proj1 (script_randomisation_p_needs_48 3 d3 d3 1%float 1
                   ([] : list nat) _ _ _) _).
  - exact d3_valid.
  - exact d3_valid.
  - lia.
  - lia.
Defined.

(** ** The builders of similarity matrices *)
Section Builders.
Context {F : Type} `{!Scalar F}.
Implicit Types (cp : list (list F)) (words : list string).

(** One row of the loops [for i: for j: m[i, j] = v]. *)
Lemma row_fill_spec n (v : nat -> F) i js : forall cp,
  shaped n n cp -> i < n -> Forall (fun j => j < n) js ->
  let cp' := foldl (fun m j => set2 m i j (v j)) cp js in
  shaped n n cp' /\
  forall a b, a < n -> b < n ->
    at2 cp' a b = if decide (a = i /\ b ∈ js) then v b else at2 cp a b.
Proof.
  induction js as [|j js IH]; intros cp Hcp Hi Hjs; cbn [foldl].
  - split; [done|]. intros a b _ _. rewrite decide_False; [done|].
    intros (_ & H). by apply elem_of_nil in H.
  - apply Forall_cons in Hjs as [Hj Hjs].
    destruct (IH (set2 cp i j (v j))) as [Hsh Hat]; try done.
    { by apply shaped_set2. }
    split; [done|]. intros a b Ha Hb. rewrite Hat by done.
    rewrite (at2_set2 n n) by done.
    destruct (decide (a = i /\ b ∈ js)) as [H|H].
    + rewrite decide_True; [done|]. destruct H as (? & ?).
      split; [done|]. by right.
    + destruct (decide (a = i /\ b = j)) as [[-> ->]|H'].
      * rewrite decide_True; [done|]. split; [done|]. by left.
      * rewrite decide_False; [done|]. intros (-> & Hin).
        apply elem_of_cons in Hin as [->|Hin]; [by apply H'|].
        by apply H.
Qed.

Lemma grid_fill_spec n (v : nat -> nat -> F) js is_ : forall cp,
  shaped n n cp -> Forall (fun i => i < n) is_ ->
  Forall (fun j => j < n) js ->
  let cp' := foldl (fun m i => foldl (fun m j => set2 m i j (v i j)) m js)
                   cp is_ in
  shaped n n cp' /\
  forall a b, a < n -> b < n ->
    at2 cp' a b = if decide (a ∈ is_ /\ b ∈ js) then v a b
                  else at2 cp a b.
Proof.
  induction is_ as [|i is_ IH]; intros cp Hcp His Hjs; cbn [foldl].
  - split; [done|]. intros a b _ _. rewrite decide_False; [done|].
    intros (H & _). by apply elem_of_nil in H.
  - apply Forall_cons in His as [Hi His].
    destruct (row_fill_spec n (v i) i js cp Hcp Hi Hjs) as [Hsh1 Hat1].
    destruct (IH _ Hsh1 His Hjs) as [Hsh Hat].
    split; [done|]. intros a b Ha Hb. rewrite Hat, Hat1 by done.
    destruct (decide (a ∈ is_ /\ b ∈ js)) as [H|H].
    + rewrite decide_True; [done|]. destruct H as (? & ?).
      split; [by right|done].
    + destruct (decide (a = i /\ b ∈ js)) as [(-> & ?)|H'].
      * rewrite decide_True; [done|]. split; [by left|done].
      * rewrite decide_False; [done|]. intros (Hin & ?).
        apply elem_of_cons in Hin as [->|Hin]; [by apply H'|by apply H].
Qed.

(** The array both builders fill: every entry off the diagonal is the
    value of its pair of positions, the diagonal is 1. *)
Lemma filled_grid n (v : nat -> nat -> F) :
  let m := fill_diagonal
             (foldl (fun m i =>
                       foldl (fun m j => set2 m i j (v i j)) m (seq 0 n))
                    (zeros2 n n) (seq 0 n))
             fone in
  shaped n n m /\
  forall a b, a < n -> b < n ->
    at2 m a b = if decide (a = b) then fone else v a b.
Proof.
  assert (Forall (fun i => i < n) (seq 0 n)) as Hseq.
  { apply Forall_forall. intros i Hi. apply elem_of_seq in Hi. lia. }
  destruct (grid_fill_spec n v (seq 0 n) (seq 0 n) (zeros2 n n)
              (shaped_zeros2 n n) Hseq Hseq) as [Hsh Hat].
  cbv zeta. split; [by apply shaped_fill_diagonal|].
  intros a b Ha Hb. rewrite (at2_fill_diagonal n n) by done.
  destruct (decide (a = b)); [done|].
  rewrite Hat by done. rewrite decide_True; [done|].
  rewrite !elem_of_seq. lia.
Qed.

(** X17: [compute_wordnet_sm] returns a similarity matrix labelled
    with the 48 selected words whose entry for two different positions
    is the association of the two words, both taken as nouns, and whose
    diagonal is 1 whatever the association of a word with itself. *)
Theorem compute_wordnet_sm_entries (words_select_48 : list string)
    (association_between : string -> POS -> string -> POS -> F) :
  exists S,
    compute_wordnet_sm words_select_48 association_between = Ok S /\
    labels S = words_select_48 /\
    forall i j w_i w_j,
      words_select_48 !! i = Some w_i ->
      words_select_48 !! j = Some w_j ->
      at2 (matrix S) i j =
        if decide (i = j) then fone
        else association_between w_i NOUN w_j NOUN.
Proof.
  unfold compute_wordnet_sm. cbv zeta.
  set (n := length words_select_48).
  destruct (filled_grid n
              (fun i j => association_between
                            (word_at words_select_48 i) NOUN
                            (word_at words_select_48 j) NOUN))
    as [Hsh Hat]. cbv zeta in Hsh, Hat.
  unfold SimilarityMatrix_init. rewrite init_Ok by done.
  cbn [fmap result_fmap]. eexists. split; [reflexivity|].
  split; [done|]. intros i j w_i w_j Hi Hj. cbn [matrix sm_base].
  rewrite Hat by (by eapply lookup_lt_Some).
  unfold word_at. by rewrite Hi, Hj.
Qed.

(** X18: [compute_buchanan_sm] returns a similarity matrix labelled
    with the 18 common words whose entry for two different positions is
    [distance_between] of the two words, and whose diagonal is 1
    whatever [distance_between] gives for a word and itself; it is
    symmetric when [distance_between] is. *)
Theorem compute_buchanan_sm_entries (words_common_18 : list string)
    (distance_between : string -> string -> F) :
  exists S,
    compute_buchanan_sm words_common_18 distance_between = Ok S /\
    labels S = words_common_18 /\
    (forall i j w_i w_j,
       words_common_18 !! i = Some w_i ->
       words_common_18 !! j = Some w_j ->
       at2 (matrix S) i j =
         if decide (i = j) then fone else distance_between w_i w_j) /\
    ((forall w w', distance_between w w' = distance_between w' w) ->
     symmetric (length words_common_18) (matrix S)).
Proof.
  unfold compute_buchanan_sm. cbv zeta.
  set (n := length words_common_18).
  destruct (filled_grid n
              (fun i j => distance_between (word_at words_common_18 i)
                                           (word_at words_common_18 j)))
    as [Hsh Hat]. cbv zeta in Hsh, Hat.
  unfold SimilarityMatrix_init. rewrite init_Ok by done.
  cbn [fmap result_fmap]. eexists. split; [reflexivity|].
  split; [done|]. cbn [matrix sm_base]. split.
  - intros i j w_i w_j Hi Hj.
    rewrite Hat by (by eapply lookup_lt_Some).
    unfold word_at. by rewrite Hi, Hj.
  - intros Hd i j Hi Hj. rewrite !Hat by done.
    destruct (decide (i = j)) as [->|Hij]; [by rewrite decide_True|].
    rewrite decide_False by congruence. apply Hd.
Qed.

Lemma dot_row_column r c (data : list (list F)) i j row_i row_j :
  shaped r c data ->
  data !! i = Some row_i -> data !! j = Some row_j ->
  imap (fun k x => fmul x (at2 (transpose_cols c data) k j)) row_i
  = zip_with fmul row_i row_j.
Proof.
  intros Hd Hi Hj.
  pose proof (shaped_row _ _ _ _ _ Hd Hi) as Li.
  pose proof (shaped_row _ _ _ _ _ Hd Hj) as Lj.
  pose proof (lookup_lt_Some _ _ _ Hj) as Hjr.
  apply list_eq. intros k.
  rewrite list_lookup_imap, lookup_zip_with.
  destruct (row_i !! k) as [x|] eqn:Ex; [|done]. cbn.
  pose proof (lookup_lt_Some _ _ _ Ex) as Hk.
  destruct (lookup_lt_is_Some_2 row_j k ltac:(lia)) as [y Ey].
  rewrite Ey. cbn. do 2 f_equal.
  unfold transpose_cols, at2 at 1.
  rewrite list_lookup_fmap, lookup_seq_lt by lia. cbn.
  rewrite list_lookup_fmap, lookup_seq_lt by done. cbn.
  unfold at2. by rewrite Hj, Ey.
Qed.

End Builders.


(** ** The sensorimotor predictor: runs *)
Section PredictorRuns.
Context {F : Type} `{!Scalar F}.
Variable distance : list F -> list F -> DistanceType -> F.
Implicit Types (sn : gmap string (list F)) (row : gmap string (cell F))
  (dataset : DataFrame F).

Lemma predictor_name_inj dt1 dt2 :
  predictor_name dt1 = predictor_name dt2 -> dt1 = dt2.
Proof. destruct dt1, dt2; intros H0; (done || by vm_compute in H0). Qed.

(** A row function that fails, fails on a key column. *)
Lemma calc_sensorimotor_distance_Raise sn k1 k2 dt row e :
  calc_sensorimotor_distance distance sn k1 k2 dt row = Raise e ->
  e = KeyError /\ (row !! k1 = None \/ row !! k2 = None).
Proof.
  unfold calc_sensorimotor_distance, try_sensorimotor_distance,
    getitem_row.
  destruct (row !! k1) as [c1|]; cbn [mbind result_bind];
    [|intros [= <-]; by split; [|left]].
  destruct (vector_for_word sn c1) as [v1|e1] eqn:E1;
    cbn [mbind result_bind].
  - destruct (row !! k2) as [c2|]; cbn [mbind result_bind];
      [|intros [= <-]; by split; [|right]].
    destruct (vector_for_word sn c2) as [v2|e2] eqn:E2;
      cbn [mbind result_bind]; [done|].
    assert (e2 = WordNotInNormsError) as ->; [|done].
    unfold vector_for_word in E2.
    destruct c2 as [w| |]; try by injection E2.
    destruct (sn !! w); [done|by injection E2].
  - assert (e1 = WordNotInNormsError) as ->; [|done].
    unfold vector_for_word in E1.
    destruct c1 as [w| |]; try by injection E1.
    destruct (sn !! w); [done|by injection E1].
Qed.

Lemma calc_sensorimotor_distance_KeyError sn k1 k2 dt row :
  row !! k1 = None ->
  calc_sensorimotor_distance distance sn k1 k2 dt row = Raise KeyError.
Proof.
  intros H1.
  unfold calc_sensorimotor_distance, try_sensorimotor_distance,
    getitem_row.
  by rewrite H1.
Qed.

Lemma apply_rows_Raise sn k1 k2 dt (rs : list (gmap string (cell F))) e :
  apply_rows (calc_sensorimotor_distance distance sn k1 k2 dt) rs
    = Raise e ->
  e = KeyError /\
  Exists (fun row => row !! k1 = None \/ row !! k2 = None) rs.
Proof.
  induction rs as [|row rs IH]; [done|]. cbn [apply_rows].
  destruct (calc_sensorimotor_distance distance sn k1 k2 dt row)
    as [c|e'] eqn:E; cbn [mbind result_bind].
  - destruct (apply_rows _ rs) as [cs|e''];
      cbn [mbind result_bind]; [done|].
    intros [= <-]. destruct (IH eq_refl) as [-> Hex].
    split; [done|]. by right.
  - intros [= <-].
    apply calc_sensorimotor_distance_Raise in E as [-> Hrow].
    split; [done|]. by left.
Qed.

Lemma apply_rows_KeyError sn k1 k2 dt (rs : list (gmap string (cell F))) :
  Exists (fun row => row !! k1 = None) rs ->
  apply_rows (calc_sensorimotor_distance distance sn k1 k2 dt) rs
    = Raise KeyError.
Proof.
  induction 1 as [row rs Hrow|row rs Hex IH]; cbn [apply_rows].
  - by rewrite calc_sensorimotor_distance_KeyError.
  - destruct (calc_sensorimotor_distance distance sn k1 k2 dt row)
      as [c|e'] eqn:E; cbn [mbind result_bind].
    + by rewrite IH.
    + by apply calc_sensorimotor_distance_Raise in E as [-> _].
Qed.

(** The builder on a data frame without the column. *)
Lemma add_sensorimotor_predictor_new sn dataset k1 k2 dt :
  predictor_name dt ∉ columns dataset ->
  add_sensorimotor_predictor distance sn dataset (k1, k2) dt =
    (series ← apply_rows (calc_sensorimotor_distance distance sn k1 k2 dt)
                (rows dataset);
     Ok {| columns := columns dataset ++ [predictor_name dt];
           rows := zip_with (fun row c => <[predictor_name dt := c]> row)
                            (rows dataset) series |}).
Proof.
  intros Hnew. unfold add_sensorimotor_predictor. cbv zeta.
  by rewrite bool_decide_eq_false_2.
Qed.

(** X19: a second call of the builder with the same distance type
    changes nothing: whatever data frame a call returns, the call on
    that data frame returns it as it is. *)
Theorem add_sensorimotor_predictor_idempotent sn dataset k1 k2 dt
    dataset' :
  add_sensorimotor_predictor distance sn dataset (k1, k2) dt
    = Ok dataset' ->
  add_sensorimotor_predictor distance sn dataset' (k1, k2) dt
    = Ok dataset'.
Proof.
  intros Hrun.
  assert (predictor_name dt ∈ columns dataset') as Hin.
  { unfold add_sensorimotor_predictor in Hrun. cbv zeta in Hrun.
    destruct (bool_decide (predictor_name dt ∈ columns dataset)) eqn:E.
    - injection Hrun as <-. by apply bool_decide_eq_true in E.
    - destruct (apply_rows _ (rows dataset)) as [series|e];
        cbn [mbind result_bind] in Hrun; [|done].
      injection Hrun as <-. cbn [columns].
      apply elem_of_app. right. by left. }
  unfold add_sensorimotor_predictor. cbv zeta.
  by rewrite bool_decide_eq_true_2.
Qed.

(** X20: the builder fails in one way only, with the [KeyError] of a
    row that lacks one of the two key columns, and only when the
    predictor column is new; it does fail so when a row lacks the first
    key column.  A word that the norms lack never makes it fail. *)
Theorem add_sensorimotor_predictor_fails_on_missing_key sn dataset k1 k2
    dt :
  (forall e,
     add_sensorimotor_predictor distance sn dataset (k1, k2) dt
       = Raise e ->
     e = KeyError /\
     (predictor_name dt ∉ columns dataset) /\
     Exists (fun row => row !! k1 = None \/ row !! k2 = None)
            (rows dataset)) /\
  (predictor_name dt ∉ columns dataset ->
   Exists (fun row => row !! k1 = None) (rows dataset) ->
   add_sensorimotor_predictor distance sn dataset (k1, k2) dt
     = Raise KeyError).
Proof.
  split.
  - intros e Hrun.
    destruct (decide (predictor_name dt ∈ columns dataset)) as [Hin|Hnew].
    + unfold add_sensorimotor_predictor in Hrun. cbv zeta in Hrun.
      by rewrite bool_decide_eq_true_2 in Hrun.
    + rewrite add_sensorimotor_predictor_new in Hrun by done.
      destruct (apply_rows _ (rows dataset)) as [series|e'] eqn:E;
        cbn [mbind result_bind] in Hrun; [done|].
      injection Hrun as <-.
      apply apply_rows_Raise in E as [-> Hex]. done.
  - intros Hnew Hex. rewrite add_sensorimotor_predictor_new by done.
    by rewrite apply_rows_KeyError.
Qed.

(** X21: two calls in a row with different distance types, as
    [process] makes them, add the two predictor columns in the order of
    the calls; each row gets the value of either predictor, the second
    call leaves the column of the first as it is, and no other cell of
    the row changes. *)
Theorem add_sensorimotor_predictor_twice sn dataset k1 k2 dt1 dt2 :
  dt1 <> dt2 ->
  k1 ∈ columns dataset -> k2 ∈ columns dataset ->
  predictor_name dt1 ∉ columns dataset ->
  predictor_name dt2 ∉ columns dataset ->
  Forall (keyed k1 k2) (rows dataset) ->
  exists d1 d2,
    add_sensorimotor_predictor distance sn dataset (k1, k2) dt1 = Ok d1 /\
    add_sensorimotor_predictor distance sn d1 (k1, k2) dt2 = Ok d2 /\
    columns d2
      = columns dataset ++ [predictor_name dt1; predictor_name dt2] /\
    length (rows d2) = length (rows dataset) /\
    forall r row w1 w2,
      rows dataset !! r = Some row ->
      row !! k1 = Some (Str w1) -> row !! k2 = Some (Str w2) ->
      rows d2 !! r
        = Some (<[predictor_name dt2 :=
                    predictor_cell distance sn w1 w2 dt2]>
                  (<[predictor_name dt1 :=
                       predictor_cell distance sn w1 w2 dt1]> row)).
Proof.
  intros Hdt Hk1 Hk2 Hn1 Hn2 Hk.
  assert (k1 <> predictor_name dt1) as Hk1n by (intros ->; done).
  assert (k2 <> predictor_name dt1) as Hk2n by (intros ->; done).
  destruct (apply_rows_keyed distance sn k1 k2 dt1 (rows dataset) Hk)
    as (s1 & Hs1 & Hlen1 & Hrows1).
  set (rows1 := zip_with (fun row c => <[predictor_name dt1 := c]> row)
                         (rows dataset) s1).
  assert (length rows1 = length (rows dataset)) as Hl1.
  { unfold rows1. rewrite length_zip_with. lia. }
  assert (forall r row w1 w2,
            rows dataset !! r = Some row ->
            row !! k1 = Some (Str w1) -> row !! k2 = Some (Str w2) ->
            rows1 !! r
              = Some (<[predictor_name dt1 :=
                          predictor_cell distance sn w1 w2 dt1]> row))
    as Hr1.
  { intros r row w1 w2 Hr H1 H2. unfold rows1.
    rewrite lookup_zip_with, Hr. cbn [mbind option_bind].
    by rewrite (Hrows1 r row w1 w2). }
  assert (Forall (keyed k1 k2) rows1) as Hk'.
  { apply Forall_lookup. intros r row' Hr'.
    destruct (lookup_lt_is_Some_2 (rows dataset) r) as [row Hr].
    { apply lookup_lt_Some in Hr'. lia. }
    rewrite Forall_lookup in Hk.
    destruct (Hk r row Hr) as (w1 & w2 & H1 & H2).
    rewrite (Hr1 r row w1 w2 Hr H1 H2) in Hr'. injection Hr' as <-.
    exists w1, w2. by rewrite !lookup_insert_ne. }
  destruct (apply_rows_keyed distance sn k1 k2 dt2 rows1 Hk')
    as (s2 & Hs2 & Hlen2 & Hrows2).
  exists {| columns := columns dataset ++ [predictor_name dt1];
            rows := rows1 |}.
  exists {| columns := (columns dataset ++ [predictor_name dt1])
                       ++ [predictor_name dt2];
            rows := zip_with
                      (fun row c => <[predictor_name dt2 := c]> row)
                      rows1 s2 |}.
  split; [by rewrite add_sensorimotor_predictor_new, Hs1|].
  split.
  { rewrite add_sensorimotor_predictor_new; cbn [columns rows].
    - by rewrite Hs2.
    - intros Hin. apply elem_of_app in Hin as [Hin|Hin]; [done|].
      apply list_elem_of_singleton in Hin.
      by apply predictor_name_inj in Hin. }
  cbn [columns rows].
  split; [by rewrite <- app_assoc|].
  split; [rewrite length_zip_with; lia|].
  intros r row w1 w2 Hr H1 H2.
  rewrite lookup_zip_with, (Hr1 r row w1 w2) by done.
  cbn [mbind option_bind].
  rewrite (Hrows2 r _ w1 w2 (Hr1 r row w1 w2 Hr H1 H2));
    [done|by rewrite lookup_insert_ne..].
Qed.
End PredictorRuns.

Lemma add_sensorimotor_predictor_idempotent_witness :
  exists dataset',
    add_sensorimotor_predictor first_coordinates norms pairs
      ("Word 1", "Word 2") cosine = Ok dataset' /\
    add_sensorimotor_predictor first_coordinates norms dataset'
      ("Word 1", "Word 2") cosine = Ok dataset'.
Proof.
  eexists. split; [reflexivity|].
  refine (add_sensorimotor_predictor_idempotent first_coordinates norms
            pairs "Word 1" "Word 2" cosine _ _).
  reflexivity.
Defined.

Lemma add_sensorimotor_predictor_twice_witness :
  exists d1 d2,
    add_sensorimotor_predictor first_coordinates norms pairs
      ("Word 1", "Word 2") Minkowski3 = Ok d1 /\
    add_sensorimotor_predictor first_coordinates norms d1
      ("Word 1", "Word 2") cosine = Ok d2 /\
    columns d2 = ["Word 1"; "Word 2"; "Sensorimotor distance (Minkowski3)";
                  "Sensorimotor distance (cosine)"] /\
    rows d2 !! 1
      = Some (<["Sensorimotor distance (cosine)" := Num 1%float]>
                (<["Sensorimotor distance (Minkowski3)" := Num 1%float]>
                   ({[ "Word 1" := Str "dog"; "Word 2" := Str "cat" ]}
                      : gmap string (cell float)))).
Proof.
  assert (Forall (keyed "Word 1" "Word 2") (rows pairs)) as Hk.
  { repeat constructor.
    - exists "zzz", "cat". split; reflexivity.
    - exists "dog", "cat". split; reflexivity. }
  assert (forall dt, predictor_name dt ∉ columns pairs) as Hnew.
  { intros dt H. apply (bool_decide_pack _) in H.
    destruct dt; by vm_compute in H. }
  assert (forall k, bool_decide (k ∈ columns pairs) = true ->
                    k ∈ columns pairs) as Hin.
  { intros k. apply bool_decide_eq_true_1. }
  destruct (add_sensorimotor_predictor_twice first_coordinates norms pairs
              "Word 1" "Word 2" Minkowski3 cosine ltac:(discriminate)
              (Hin "Word 1" eq_refl) (Hin "Word 2" eq_refl)
              (Hnew _) (Hnew _) Hk)
    as (d1 & d2 & Hd1 & Hd2 & Hcols & _ & Hrows).
  exists d1, d2. split; [exact Hd1|]. split; [exact Hd2|].
  split; [exact Hcols|].
  exact (Hrows 1 _ "dog" "cat" eq_refl eq_refl eq_refl).
Defined.

(** ** The comparisons of the script *)
Section MainRaises.
Context {F : Type} `{!Scalar F} `{!Exp F} {G : Type} `{!RandomState G}.

Lemma squareform_Raise (X : list (list F)) e :
  squareform X = Raise e -> e = ValueError.
Proof.
  unfold squareform. cbv zeta.
  destruct (negb _); [by intros [= <-]|].
  destruct (negb _); [by intros [= <-]|done].
Qed.

Lemma corrcoef01_Raise (x y : list F) e :
  corrcoef01 x y = Raise e -> e = ValueError.
Proof.
  unfold corrcoef01. destruct (negb _); [by intros [= <-]|done].
Qed.

(** X23: the comparison "sm_minkowski vs ppts" of [main] never
    returns unless the largest Minkowski distance is exactly 1: the
    matrix it hands to [randomisation_p] is [max - similarity], whose
    diagonal is [max - 1], and [squareform] refuses a diagonal that is
    not zero ([ValueError]); an earlier step can only fail with
    [IndexError] or [ValueError]. *)
Theorem main_sm_minkowski_vs_ppts_raises (sm_words words48 : list string)
    (sm_rdm_minkowski rdm_48_triplet : list (list F)) (n_perms : nat)
    (g : G) (m : F) :
  Hebart.py_max (concat sm_rdm_minkowski) = Ok m ->
  feqb (fsub m fone) fzero = false ->
  words48 <> [] ->
  exists e,
    Hebart.main_sm_minkowski_vs_ppts sm_words words48 sm_rdm_minkowski
      rdm_48_triplet n_perms g = Raise e /\
    (e = IndexError \/ e = ValueError).
Proof.
  intros Hmax Hm Hne. unfold Hebart.main_sm_minkowski_vs_ppts.
  rewrite Hmax. cbn [mbind result_bind]. cbv zeta.
  destruct (Hebart.mean_softmax_prob_matrix sm_words words48 _)
    as [sim|e] eqn:Esim; cbn [mbind result_bind].
  2:{ exists e. split; [done|]. left.
      by apply script_transform_Raise in Esim. }
  destruct (squareform (mat_map (fsub fone) sim)) as [c1|e] eqn:E1;
    cbn [mbind result_bind].
  2:{ exists e. split; [done|]. right. by apply squareform_Raise in E1. }
  destruct (squareform rdm_48_triplet) as [c2|e] eqn:E2;
    cbn [mbind result_bind].
  2:{ exists e. split; [done|]. right. by apply squareform_Raise in E2. }
  destruct (corrcoef01 c1 c2) as [r|e] eqn:E3; cbn [mbind result_bind].
  2:{ exists e. split; [done|]. right. by apply corrcoef01_Raise in E3. }
  exists ValueError. split; [|by right].
  unfold Hebart.randomisation_p.
  assert (0 < length words48) as Hlen by (destruct words48; [done|simpl; lia]).
  pose proof (script_transform_diagonal _ _ _ _ 0 Esim Hlen) as Hd.
  apply script_transform_Ok_inv in Esim as (cp & Hcp & Hpos & Hsim).
  assert (shaped (length words48) (length words48) sim) as Hsh.
  { rewrite Hsim, <- (searchsorted_length sm_words words48).
    apply shaped_select. }
  rewrite (squareform_nonzero_diagonal (mat_map (fsub m) sim) 0);
    [done| |].
  - unfold mat_map. rewrite length_map. destruct Hsh as [-> _]. done.
  - rewrite (at2_mat_map _ _ _ _ _ _ Hsh) by done. by rewrite Hd.
Qed.
End MainRaises.

Section MainReturns.
Context {G : Type} `{!RandomState G}.

(** The dissimilarities [1 - M] of a matrix the script's transform
    returns are what [squareform] accepts. *)
Lemma script_transform_rdm_valid (all_words select_words : list string)
    (similarity_matrix M : list (list R)) :
  Hebart.mean_softmax_prob_matrix all_words select_words
    similarity_matrix = Ok M ->
  valid_dm (length select_words) (mat_map (fsub fone) M).
Proof.
  intros HM. pose proof HM as Hinv.
  apply script_transform_Ok_inv in Hinv as (cp & Hcp & Hpos & Hsel).
  set (pos := searchsorted all_words select_words) in *.
  assert (length pos = length select_words) as Hlen
    by apply searchsorted_length.
  assert (shaped (length select_words) (length select_words) M) as Hsh.
  { rewrite Hsel, <- Hlen. apply shaped_select. }
  split; [by apply shaped_mat_map|].
  apply is_valid_dm_spec.
  assert (length (mat_map (fsub fone) M) = length select_words) as ->.
  { unfold mat_map. rewrite length_map. by destruct Hsh. }
  rewrite Forall_lookup in Hpos. split.
  - intros a b Ha Hb. apply R_feqb_eq.
    rewrite !(at2_mat_map _ _ _ _ _ _ Hsh) by done. f_equal.
    destruct (lookup_lt_is_Some_2 pos a ltac:(lia)) as [i Hi].
    destruct (lookup_lt_is_Some_2 pos b ltac:(lia)) as [j Hj].
    rewrite Hsel.
    rewrite (at2_select _ pos pos a b i j),
            (at2_select _ pos pos b a j i) by done.
    rewrite !(averaged_and_mirrored_at2 (length all_words))
      by (done || by eapply Hpos).
    destruct (decide (i = j)) as [->|Hij]; [by rewrite decide_True|].
    rewrite decide_False by congruence.
    change (@fadd R _) with Rplus. apply Rplus_comm.
  - intros a Ha. apply R_feqb_eq.
    rewrite (at2_mat_map _ _ _ _ _ _ Hsh) by done.
    rewrite (script_transform_diagonal _ _ _ _ a HM Ha). cbn. lra.
Qed.

End MainReturns.

Lemma strictly_sorted_check (a : list string) :
  forallb (fun i =>
             forallb (fun j =>
                        String.ltb (default EmptyString (a !! i))
                                   (default EmptyString (a !! j)))
                     (seq (i + 1) (length a - (i + 1))))
          (seq 0 (length a)) = true ->
  strictly_sorted a.
Proof.
  intros Hc i j x y Hij Hi Hj.
  rewrite forallb_forall in Hc.
  pose proof (lookup_lt_Some _ _ _ Hj) as Hjn.
  specialize (Hc i ltac:(apply in_seq; lia)).
  rewrite forallb_forall in Hc.
  specialize (Hc j ltac:(apply in_seq; lia)).
  by rewrite Hi, Hj in Hc.
Qed.

Lemma words48_strictly_sorted : strictly_sorted words48_sorted.
Proof. apply strictly_sorted_check. by vm_compute. Qed.

Lemma dm48_exact_valid : valid_dm 48 dm48_exact.
Proof.
  assert (forall i j, i < 48 -> j < 48 ->
            at2 dm48_exact i j = INR (if i <? j then j - i else i - j))
    as Hat.
  { intros i j Hi Hj. unfold at2, dm48_exact.
    rewrite list_lookup_fmap, lookup_seq_lt by done. cbn [fmap option_fmap option_map].
    by rewrite list_lookup_fmap, lookup_seq_lt. }
  split.
  - unfold dm48_exact. split; [by rewrite length_map, length_seq|].
    apply Forall_map, Forall_forall. intros i _. cbn beta.
    by rewrite length_map, length_seq.
  - apply is_valid_dm_spec.
    assert (length dm48_exact = 48) as ->
      by (unfold dm48_exact; by rewrite length_map, length_seq).
    split.
    + intros i j Hi Hj. apply R_feqb_eq. rewrite !Hat by done.
      apply (f_equal INR).
      destruct (Nat.ltb_spec i j); destruct (Nat.ltb_spec j i); lia.
    + intros i Hi. apply R_feqb_eq. rewrite Hat by done.
      rewrite Nat.ltb_irrefl, Nat.sub_diag. done.
Qed.

Lemma far2_max : Hebart.py_max (concat [[0; 2]; [2; 0]]%R) = Ok 2%R.
Proof.
  cbn. f_equal.
  destruct (Rlt_dec 0 2) as [_|H]; [|exfalso; lra].
  destruct (Rlt_dec 2 2) as [H|_]; [exfalso; lra|].
  by destruct (Rlt_dec 2 0) as [H|_]; [exfalso; lra|].
Qed.

Lemma main_sm_minkowski_vs_ppts_raises_witness :
  exists e,
    Hebart.main_sm_minkowski_vs_ppts ["a"; "b"] ["a"; "b"]
      [[0; 2]; [2; 0]]%R r2 1 ([] : list nat) = Raise e /\
    (e = IndexError \/ e = ValueError).
Proof.
  refine (main_sm_minkowski_vs_ppts_raises (G := list nat) ["a"; "b"]
            ["a"; "b"] [[0; 2]; [2; 0]]%R r2 1 [] 2%R _ _ _).
  - exact far2_max.
  - cbn. destruct (Req_dec_T (2 - 1) 0) as [H|_]; [exfalso; lra|done].
  - discriminate.
Defined.

